(** * nsCamera: readout reconstruction of the S4 and Hyperion sensors

    A shallow embedding of [s4.parseReadoff] (with its nested
    [interlace_arrays]), [s4.__init__] and [s4.reportStatusSensor] from
    [nsCamera/sensors/s4.py] and of [hyperion.parseReadoff] from
    [nsCamera/sensors/hyperion.py], together with the numpy and string
    operations these methods call.

    numpy arrays are modelled as a shape and the elements in C (row-major)
    order.  A Python exception is a value of [exn]; a computation that may
    raise returns [result A = exn + A].  Dimensions and frame counts are
    natural numbers: the sensor attributes [nframes], [height] and [width]
    are pixel and frame counts.  [parseReadoff] is modelled twice: over
    arrays as values, and over the buffers the arrays read ([Module Store]),
    where views and copies differ. *)

From Stdlib Require Import ZArith ZifyNat Ascii.
From stdpp Require Import base option list list_numbers gmap strings pretty.

Ltac Zify.zify_post_hook ::= Z.to_euclidean_division_equations.

(** ** Exceptions and results *)

Inductive exn : Type :=
  | ValueError
  | AssertionError
  | ZeroDivisionError
  | IndexError
  | AxisError
  | TypeError.

#[global] Instance exn_eq_dec : EqDecision exn.
Proof. solve_decision. Defined.

Definition result (A : Type) : Type := (exn + A)%type.

Definition raise {A} (e : exn) : result A := inl e.
Definition ret {A} (x : A) : result A := inr x.

Definition bind {A B} (m : result A) (f : A → result B) : result B :=
  match m with
  | inl e => inl e
  | inr x => f x
  end.

Notation "'do' x <- m ; k" := (bind m (λ x, k))
  (at level 10, x name, m at level 100, k at level 200,
   format "'[v' 'do'  x  <-  m ; '/' k ']'").

(** ** numpy arrays *)

Record ndarray (A : Type) : Type := NDArray {
  shape : list nat;
  data : list A
}.
Arguments NDArray {A} _ _.
Arguments shape {A} _.
Arguments data {A} _.

(** Number of elements of an array of the given shape. *)
Definition numel (shp : list nat) : nat := foldr Nat.mul 1 shp.

(** The invariant of every numpy array: as many elements as the shape says. *)
Definition wf {A} (a : ndarray A) : Prop := length (data a) = numel (shape a).

(** Element [(r, c)] of a two-dimensional array. *)
Definition get2 {A} (a : ndarray A) (r c : nat) : option A :=
  match shape a with
  | [h; w] => if decide (r < h ∧ c < w) then data a !! (r * w + c) else None
  | _ => None
  end.

(** The [i]-th block of [n] consecutive elements. *)
Definition block {A} (n i : nat) (l : list A) : list A := take n (drop (i * n) l).

(** [np.reshape(a, shp)] and [a.reshape(shp)]: the elements in C order under
    a new shape; [ValueError] when the sizes differ. *)
Definition np_reshape {A} (a : ndarray A) (shp : list nat) : result (ndarray A) :=
  if decide (length (data a) = numel shp) then ret (NDArray shp (data a))
  else raise ValueError.

(** Iteration over an array: its sub-arrays along axis 0 ([TypeError] on a
    0-d array). *)
Definition iter {A} (a : ndarray A) : result (list (ndarray A)) :=
  match shape a with
  | [] => raise TypeError
  | n :: rest => ret ((λ i, NDArray rest (block (numel rest) i (data a))) <$> seq 0 n)
  end.

(** The elements at positions 0, 2, 4, ... : what iterating over [a[::2]]
    yields from the items of [a]; [a[1::2]] yields [every_other (drop 1 _)]. *)
Fixpoint every_other {A} (l : list A) : list A :=
  match l with
  | [] => []
  | x :: l' =>
      x :: match l' with
           | [] => []
           | _ :: l'' => every_other l''
           end
  end.

(** [np.split(a, sections, axis=1)]: [sections] equal parts along axis 1. *)
Definition np_split_axis1 {A} (a : ndarray A) (sections : nat)
    : result (list (ndarray A)) :=
  match shape a with
  | d0 :: d1 :: rest =>
      if decide (sections = 0) then raise ZeroDivisionError
      else if decide (d1 mod sections = 0) then
        let g := d1 / sections in
        let inner := numel rest in
        ret ((λ j, NDArray (d0 :: g :: rest)
                     (mjoin ((λ i, take (g * inner)
                                     (drop (i * (d1 * inner) + j * (g * inner)) (data a)))
                             <$> seq 0 d0)))
             <$> seq 0 sections)
      else raise ValueError
  | _ => raise IndexError
  end.

(** Length of axis 1 (0 for arrays of fewer than two dimensions). *)
Definition axis1 {A} (a : ndarray A) : nat :=
  match shape a with
  | _ :: d1 :: _ => d1
  | _ => 0
  end.

(** Same shape as [d0 :: _ :: rest], the length of axis 1 apart. *)
Definition same_but_axis1 {A} (d0 : nat) (rest : list nat) (a : ndarray A) : Prop :=
  match shape a with
  | e0 :: _ :: r => e0 = d0 ∧ r = rest
  | _ => False
  end.

#[global] Instance same_but_axis1_dec {A} d0 rest (a : ndarray A) :
  Decision (same_but_axis1 d0 rest a).
Proof. unfold same_but_axis1. destruct (shape a) as [|? [|? ?]]; apply _. Defined.

(** [np.concatenate(arrs, axis=1)]: a new array whose rows are the rows of
    the arrays of [arrs] one after the other. *)
Definition np_concatenate_axis1 {A} (arrs : list (ndarray A)) : result (ndarray A) :=
  match arrs with
  | [] => raise ValueError
  | a0 :: _ =>
      match shape a0 with
      | d0 :: _ :: rest =>
          if decide (Forall (same_but_axis1 d0 rest) arrs) then
            ret (NDArray (d0 :: sum_list (axis1 <$> arrs) :: rest)
                   (mjoin ((λ i, mjoin ((λ a, block (axis1 a * numel rest) i (data a))
                                        <$> arrs))
                           <$> seq 0 d0)))
          else raise ValueError
      | _ => raise AxisError
      end
  end.

(** [np.array(arrs)] of a Python list of arrays: the arrays stacked along a
    new first axis; the empty list gives the empty array of shape [(0,)]. *)
Definition np_array {A} (arrs : list (ndarray A)) : result (ndarray A) :=
  match arrs with
  | [] => ret (NDArray [0] [])
  | a0 :: _ =>
      if decide (Forall (λ a, shape a = shape a0) arrs) then
        ret (NDArray (length arrs :: shape a0) (mjoin (data <$> arrs)))
      else raise ValueError
  end.

(** A value cast to [np.int32]: two's complement wrap-around to 32 bits. *)
Definition wrap32 (z : Z) : Z := ((z + 2 ^ 31) mod 2 ^ 32 - 2 ^ 31)%Z.

(** [a.astype(np.int32)]: a new array of the cast values. *)
Definition astype_int32 (a : ndarray Z) : ndarray Z :=
  NDArray (shape a) (wrap32 <$> data a).

(** ** The S4 sensor object *)

(** The numeric attributes set by [s4.__init__]. *)
Record s4 : Type := S4 {
  minframe : nat;
  maxframe : nat;
  firstframe : nat;
  lastframe : nat;
  nframes : nat;
  maxwidth : nat;
  maxheight : nat;
  firstrow : nat;
  lastrow : nat;
  width : nat;
  height : nat;
  bytesperpixel : nat;
  icarustype : nat;
  interlacing : nat
}.

(** The object [s4.__init__] builds. *)
Definition s4_init : s4 :=
  let minframe := 0 in
  let maxframe := 1 in
  let maxwidth := 512 in
  let maxheight := 1024 in
  {| minframe := minframe;
     maxframe := maxframe;
     firstframe := minframe;
     lastframe := maxframe;
     nframes := maxframe - minframe + 1;
     maxwidth := maxwidth;
     maxheight := maxheight;
     firstrow := 0;
     lastrow := maxheight - 1;
     width := maxwidth;
     height := maxheight;
     bytesperpixel := 2;
     icarustype := 0;
     interlacing := 0 |}.

(** ** [s4.parseReadoff] *)

(** The loop of [interlace_arrays]: both groups of each pair appended in turn. *)
Definition interlace_groups {X} (groups1 groups2 : list X) : list X :=
  foldl (λ interlaced_groups '(g1, g2), (interlaced_groups ++ [g1]) ++ [g2])
        [] (zip groups1 groups2).

(** The nested function [interlace_arrays] of [parseReadoff]. *)
Definition interlace_arrays {A} (array1 array2 : ndarray A) : result (ndarray A) :=
  if decide (shape array1 = [1024; 512]) then
    if decide (shape array2 = [1024; 512]) then
      do groups1 <- np_split_axis1 array1 16;
      do groups2 <- np_split_axis1 array2 16;
      np_concatenate_axis1 (interlace_groups groups1 groups2)
    else raise AssertionError
  else raise AssertionError.

(** The loop of [parseReadoff] over the pairs of subframes; [s4_frames] is
    the list built so far. *)
Fixpoint interlace_pairs {A} (pairs : list (ndarray A * ndarray A))
    (s4_frames : list (ndarray A)) : result (list (ndarray A)) :=
  match pairs with
  | [] => ret s4_frames
  | (first, second) :: pairs' =>
      do r <- interlace_arrays first second;
      interlace_pairs pairs' (s4_frames ++ [r])
  end.

Definition parseReadoff (self : s4) (frames : ndarray Z) : result (ndarray Z) :=
  do frames <- np_reshape frames [nframes self; height self; width self];
  do subframes <- iter frames;
  do s4_frames <-
    interlace_pairs (zip (every_other subframes) (every_other (drop 1 subframes))) [];
  do s4_frames_2d <- np_array s4_frames;
  do s4_frames_1d <- np_reshape s4_frames_2d [height self; 2 * width self];
  ret (astype_int32 s4_frames_1d).

(** ** [s4.parseReadoff] over buffers: views and copies

    The same method once more, now with the buffers the arrays read.  An
    array object is a buffer (its base) and, for each of its elements in C
    order, the position of the element in that buffer.  [np.reshape] of an
    array, slicing, iteration and [np.split] return views, which read the
    buffer of their argument; [np.concatenate], [np.array] and [astype]
    return an array with a buffer of its own, newly allocated. *)

Module Store.

Record varray : Type := VArray {
  base : nat;
  offsets : ndarray nat
}.

(** The arrays have a map of buffers threaded through them; a computation
    may raise and may allocate. *)
Definition M (A : Type) : Type :=
  gmap nat (list Z) → result A * gmap nat (list Z).

Definition sret {A} (x : A) : M A := λ σ, (inr x, σ).

Definition sbind {A B} (m : M A) (f : A → M B) : M B :=
  λ σ, match m σ with
       | (inl e, σ') => (inl e, σ')
       | (inr x, σ') => f x σ'
       end.

Definition lift {A} (r : result A) : M A := λ σ, (r, σ).

Definition get_heap : M (gmap nat (list Z)) := λ σ, (inr σ, σ).

Notation "'do!' x <- m ; k" := (sbind m (λ x, k))
  (at level 10, x name, m at level 100, k at level 200,
   format "'[v' 'do!'  x  <-  m ; '/' k ']'").

(** The element at position [o] of buffer [l]. *)
Definition peek (σ : gmap nat (list Z)) (l o : nat) : Z :=
  default 0%Z (default [] (σ !! l) !! o).

(** The array an array object denotes. *)
Definition read (σ : gmap nat (list Z)) (v : varray) : ndarray Z :=
  NDArray (shape (offsets v)) (peek σ (base v) <$> data (offsets v)).

(** A new buffer with the elements [d]. *)
Definition alloc (d : list Z) : M nat :=
  λ σ, let l := fresh (dom σ) in (inr l, <[l := d]> σ).

(** A new array object with a buffer of its own. *)
Definition new_array (a : ndarray Z) : M varray :=
  do! l <- alloc (data a);
  sret (VArray l (NDArray (shape a) (seq 0 (length (data a))))).

Definition reshape_view (v : varray) (shp : list nat) : result varray :=
  do o <- np_reshape (offsets v) shp;
  ret (VArray (base v) o).

Definition iter_view (v : varray) : result (list varray) :=
  do subs <- iter (offsets v);
  ret (VArray (base v) <$> subs).

Definition split_view (v : varray) (sections : nat) : result (list varray) :=
  do groups <- np_split_axis1 (offsets v) sections;
  ret (VArray (base v) <$> groups).

Definition concatenate_new (vs : list varray) : M varray :=
  do! σ <- get_heap;
  do! r <- lift (np_concatenate_axis1 (read σ <$> vs));
  new_array r.

Definition array_new (vs : list varray) : M varray :=
  do! σ <- get_heap;
  do! r <- lift (np_array (read σ <$> vs));
  new_array r.

Definition astype_new (v : varray) : M varray :=
  do! σ <- get_heap;
  new_array (astype_int32 (read σ v)).

Definition interlace_arrays (array1 array2 : varray) : M varray :=
  if decide (shape (offsets array1) = [1024; 512]) then
    if decide (shape (offsets array2) = [1024; 512]) then
      do! groups1 <- lift (split_view array1 16);
      do! groups2 <- lift (split_view array2 16);
      concatenate_new (interlace_groups groups1 groups2)
    else lift (raise AssertionError)
  else lift (raise AssertionError).

Fixpoint interlace_pairs (pairs : list (varray * varray))
    (s4_frames : list varray) : M (list varray) :=
  match pairs with
  | [] => sret s4_frames
  | (first, second) :: pairs' =>
      do! r <- interlace_arrays first second;
      interlace_pairs pairs' (s4_frames ++ [r])
  end.

Definition parseReadoff (self : s4) (frames : varray) : M varray :=
  do! frames <- lift (reshape_view frames [nframes self; height self; width self]);
  do! subframes <- lift (iter_view frames);
  do! s4_frames <-
    interlace_pairs (zip (every_other subframes) (every_other (drop 1 subframes))) [];
  do! s4_frames_2d <- array_new s4_frames;
  do! s4_frames_1d <- lift (reshape_view s4_frames_2d [height self; 2 * width self]);
  astype_new s4_frames_1d.

End Store.

(** ** [s4.reportStatusSensor]

    The camera assembler [ca] is outside [s4.py]: of it the method uses
    [getRegister], which returns a pair [(err, rval)], may raise and may
    change the state of the camera.  [int(rval, 16)] is Python's; it may
    raise too.  [E] is the type of the exceptions of these two. *)

Module status.

Inductive raised (E : Type) : Type :=
  | UnboundLocalError
  | IndexError
  | ValueError
  | Raised (e : E).
Arguments UnboundLocalError {E}.
Arguments IndexError {E}.
Arguments ValueError {E}.
Arguments Raised {E} _.

Record camassem (World E : Type) : Type := CameraAssembler {
  loginfobase : string;
  getRegister : string → World → (E + string * string) * World
}.
Arguments loginfobase {World E} _.
Arguments getRegister {World E} _ _ _.

(** [bin(z)] *)
Fixpoint bin_digits (p : positive) : string :=
  match p with
  | xH => "1"
  | xO p' => bin_digits p' +:+ "0"
  | xI p' => bin_digits p' +:+ "1"
  end.

Definition bin (z : Z) : string :=
  match z with
  | Z0 => "0b0"
  | Zpos p => "0b" +:+ bin_digits p
  | Zneg p => "-0b" +:+ bin_digits p
  end.

(** [s[n:]] *)
Fixpoint drop_chars (n : nat) (s : string) : string :=
  match n, s with
  | S n', String _ s' => drop_chars n' s'
  | _, _ => s
  end.

(** ['0' * n] *)
Fixpoint zeros (n : nat) : string :=
  match n with
  | 0 => ""
  | S n' => String "0"%char (zeros n')
  end.

(** [s.zfill(width)]: zeros on the left, after a leading sign. *)
Definition zfill (width : nat) (s : string) : string :=
  if decide (width ≤ String.length s) then s
  else match s with
       | String c s' =>
           if decide (c = "+"%char ∨ c = "-"%char)
           then String c (zeros (width - String.length s) +:+ s')
           else zeros (width - String.length s) +:+ s
       | EmptyString => zeros width
       end.

(** [s[i]] for an integer [i]: a negative index counts from the end. *)
Definition getitem {E} (s : string) (i : Z) : raised E + string :=
  let n := Z.of_nat (String.length s) in
  let j := if decide (i < 0)%Z then (i + n)%Z else i in
  if decide (0 ≤ j < n)%Z then
    match String.get (Z.to_nat j) s with
    | Some c => inr (String c "")
    | None => inl IndexError
    end
  else inl IndexError.

(** [s.index(sub)] *)
Definition str_index {E} (s sub : string) : raised E + Z :=
  match String.index 0 sub s with
  | Some n => inr (Z.of_nat n)
  | None => inl ValueError
  end.

Definition cross_reference : list (string * string) :=
  [ ("TCACCESINBYPASS", "W0_BOT_L_EDGE2");
    ("BGTRIMA0", "W2_BOT_L_EDGE2");
    ("BGTRIMA1", "W2_BOT_L_EDGE1");
    ("BGTRIMA2", "W1_BOT_L_EDGE2");
    ("BGTRB0", "W1_TOP_L_EDGE2");
    ("BGTRB1", "W2_TOP_L_EDGE1");
    ("BGTRB2", "W2_TOP_L_EDGE2");
    ("BGTRB3", "W3_TOP_L_EDGE1");
    ("TC_SHIF_IN_UP", "W3_BOT_R_EDGE1");
    ("TC_GLB_CHARGE_EN", "W2_BOT_R_EDGE1");
    ("TC_DC_PXL_ACCESS_EN", "W2_BOT_R_EDGE2");
    ("TCnDCPXLACCOUT", "W0_BOT_R_EDGE1");
    ("TC_SR_PRGM_MODE", "W3_BOT_R_EDGE2");
    ("TCSRUPOUT", "W1_BOT_R_EDGE1");
    ("TCSRDNOUT", "W1_BOT_R_EDGE2");
    ("TC_SHIFT_IN_DN", "W3_TOP_R_EDGE1");
    ("TC_nRST_SR", "W3_TOP_R_EDGE2");
    ("TC_TEST_AMP_EN", "W2_TOP_R_EDGE1");
    ("TRGOUT", "W0_TOP_R_EDGE1");
    ("TRGIN", "W0_TOP_R_EDGE2");
    ("REPTREEOUT", "W0_TOP_L_EDGE1");
    ("TC_TEST_CLK_IN", "W2_TOP_R_EDGE2") ].

(** The names the four nested loops go through, in their order. *)
Definition detnames : list string :=
  frame ← seq 0 4;
  vert ← ["TOP"; "BOT"];
  edge ← seq 1 2;
  hor ← ["L"; "R"];
  ["W" +:+ pretty frame +:+ "_" +:+ vert +:+ "_" +:+ hor +:+ "_EDGE" +:+ pretty edge].

(** The local variables the first loop works on: [detdict], and [bitidx],
    which no statement before the loop assigns. *)
Record locals : Type := Locals {
  detdict : gmap string string;
  bitidx : option Z
}.

(** [detdict[detname] = bitsrev[bitidx]; bitidx += 1] *)
Definition record_edge {E} (bitsrev : string) (l : locals) (detname : string)
    : raised E + locals :=
  match bitidx l with
  | None => inl UnboundLocalError
  | Some i =>
      match getitem bitsrev i with
      | inl e => inl e
      | inr bit => inr (Locals (<[detname := bit]> (detdict l)) (Some (i + 1)%Z))
      end
  end.

(** A [for] loop: the state after the last pass, or the exception a pass
    raised together with the state that pass started from. *)
Fixpoint for_each {E S X} (body : S → X → raised E + S) (s : S) (xs : list X)
    : raised E * S + S :=
  match xs with
  | [] => inr s
  | x :: xs' =>
      match body s x with
      | inl e => inl (e, s)
      | inr s' => for_each body s' xs'
      end
  end.

(** The second loop: [result_dict] and the messages logged so far. *)
Definition report_label {E} (loginfo bitsrev : string) (detdict : gmap string string)
    (acc : gmap string (option Z) * list string) (item : string * string)
    : raised E + gmap string (option Z) * list string :=
  let '(label, key) := item in
  match detdict !! key with
  | Some bit =>
      match str_index bitsrev bit with
      | inl e => inl e
      | inr bit_value =>
          inr (<[label := Some bit_value]> acc.1,
               if decide (bit_value = 0%Z) then acc.2
               else acc.2 ++ [loginfo +:+ label +:+ " Detected"])
      end
  | None => inr (<[label := None]> acc.1, acc.2)
  end.

Definition reportStatusSensor {World E StatusBits}
    (ca : camassem World E) (int16 : string → E + Z) (statusbits : StatusBits)
    (world : World) (log : list string)
    : (raised E + gmap string (option Z)) * World * list string :=
  let loginfo := loginfobase ca +:+ "[S4] " in
  match getRegister ca "STAT_EDGE_DETECTS" world with
  | (inl e, world') => (inl (Raised e), world', log)
  | (inr (err, rval), world') =>
      match int16 rval with
      | inl e => (inl (Raised e), world', log)
      | inr n =>
          let edgebits := zfill 32 (drop_chars 2 (bin (Z.shiftl n 1))) in
          let bitsrev := String.rev edgebits in
          match for_each (record_edge bitsrev) (Locals ∅ None) detnames with
          | inl (e, _) => (inl e, world', log)
          | inr l =>
              match for_each (report_label loginfo bitsrev (detdict l))
                             (∅, log) cross_reference with
              | inl (e, (_, log')) => (inl e, world', log')
              | inr (result_dict, log') => (inr result_dict, world', log')
              end
          end
      end
  end.

End status.

(** ** Derived notions used in the statements *)

(** The columns [c0 .. c0 + n - 1] of a two-dimensional array: [a[:, c0:c0+n]]. *)
Definition columns {A} (a : ndarray A) (c0 n : nat) : ndarray A :=
  match shape a with
  | [h; w] => NDArray [h; n] (mjoin ((λ i, take n (drop (i * w + c0) (data a))) <$> seq 0 h))
  | _ => a
  end.

(** The arrays of [arrs], all of shape [(h, g)], side by side. *)
Definition hstack {A} (h g : nat) (arrs : list (ndarray A)) : ndarray A :=
  NDArray [h; length arrs * g]
    (mjoin ((λ i, mjoin ((λ a, block g i (data a)) <$> arrs)) <$> seq 0 h)).

(** The body of [interlace_arrays] below its two assertions, for [k] groups. *)
Definition interlace_by {A} (k : nat) (array1 array2 : ndarray A) : result (ndarray A) :=
  do groups1 <- np_split_axis1 array1 k;
  do groups2 <- np_split_axis1 array2 k;
  np_concatenate_axis1 (interlace_groups groups1 groups2).

(** The [k] groups of [g] columns of an array. *)
Definition groups_of {A} (k g : nat) (a : ndarray A) : list (ndarray A) :=
  (λ j, columns a (j * g) g) <$> seq 0 k.

(** What [interlace_by k] returns on two arrays of shape [(h, w)]. *)
Definition interlaced {A} (k h w : nat) (a1 a2 : ndarray A) : ndarray A :=
  hstack h (w / k) (interlace_groups (groups_of k (w / k) a1) (groups_of k (w / k) a2)).

(** The items of a list two at a time; an item left over is dropped. *)
Fixpoint pairs_of {A} (l : list A) : list (A * A) :=
  match l with
  | x :: y :: l' => (x, y) :: pairs_of l'
  | _ => []
  end.

(** Subframe [i] of the raw buffer, as [parseReadoff] sees it after the
    reshape to [(nframes, height, width)]. *)
Definition subframe (self : s4) (frames : ndarray Z) (i : nat) : ndarray Z :=
  NDArray [height self; width self]
    (block (height self * width self) i (data frames)).

(** The buffer of an array object exists. *)
Definition live (σ : gmap nat (list Z)) (v : Store.varray) : Prop :=
  is_Some (σ !! Store.base v).

(** An array object with an existing buffer, and the array it denotes. *)
Definition denotes (σ : gmap nat (list Z)) (v : Store.varray) (a : ndarray Z) : Prop :=
  live σ v ∧ Store.read σ v = a.

(** Two outcomes, of the method over buffers and of the method over arrays,
    agree up to [R]: the same exception, or results related by [R]. *)
Definition agree {X Y} (R : X → Y → Prop) (res : result X) (r : result Y) : Prop :=
  match res, r with
  | inr x, inr y => R x y
  | inl e, inl e' => e = e'
  | _, _ => False
  end.

(** Run from [σ], the computation over buffers keeps every buffer of [σ] as
    it is and ends as the computation over arrays does. *)
Definition sim {X Y} (R : gmap nat (list Z) → X → Y → Prop)
    (m : Store.M X) (r : result Y) (σ : gmap nat (list Z)) : Prop :=
  ∃ res σ', m σ = (res, σ') ∧ σ ⊆ σ' ∧ agree (R σ') res r.

(** The caller's raw array: buffer 0 holds its elements. *)
Definition raw_heap (a : ndarray Z) : gmap nat (list Z) := {[ 0 := data a ]}.
Definition raw_view (a : ndarray Z) : Store.varray :=
  Store.VArray 0 (NDArray (shape a) (seq 0 (length (data a)))).

(** The values of [np.int32]. *)
Definition int32 (z : Z) : Prop := (- 2 ^ 31 ≤ z < 2 ^ 31)%Z.

(** An S4 readout group: the 512 columns of a subframe in 16 groups. *)
Definition group_width : nat := 512 / 16.

(** The sensor object after [self.nframes = n; self.height = h; self.width = w]. *)
Definition set_geometry (n h w : nat) (self : s4) : s4 :=
  {| minframe := minframe self;
     maxframe := maxframe self;
     firstframe := firstframe self;
     lastframe := lastframe self;
     nframes := n;
     maxwidth := maxwidth self;
     maxheight := maxheight self;
     firstrow := firstrow self;
     lastrow := lastrow self;
     width := w;
     height := h;
     bytesperpixel := bytesperpixel self;
     icarustype := icarustype self;
     interlacing := interlacing self |}.

(** A flat raw buffer of [n] subframes of [sz] pixels, subframe [i] filled
    with the value [f i]. *)
Definition raw_frames (n sz : nat) (f : nat → Z) : ndarray Z :=
  NDArray [n * sz] (mjoin ((λ i, replicate sz (f i)) <$> seq 0 n)).

(** Subframe A all 1s, subframe B all 2s, and so on. *)
Definition marker (i : nat) : Z := Z.of_nat (i + 1).

(** Subframes A and B all 1s and all 2s, a third subframe all [v]. *)
Definition marker_third (v : Z) (i : nat) : Z :=
  if decide (i < 2) then marker i else v.

(** A subframe of the S4 geometry with every pixel equal to [v]. *)
Definition const_frame (v : Z) : ndarray Z :=
  NDArray [1024; 512] (replicate (1024 * 512) v).

(** The sensor object with two subframes of 8 rows and 64 columns. *)
Definition s4_8x64 : s4 := set_geometry 2 8 64 s4_init.

(** The sensor object with two subframes of 4 rows and 4 columns. *)
Definition s4_4x4 : s4 := set_geometry 2 4 4 s4_init.

(** The sensor object with two subframes of 4 rows and 64 columns. *)
Definition s4_4x64 : s4 := set_geometry 2 4 64 s4_init.

(** The sensor object of the S4 geometry with one, three and four subframes. *)
Definition s4_one_frame : s4 := set_geometry 1 1024 512 s4_init.
Definition s4_three_frames : s4 := set_geometry 3 1024 512 s4_init.
Definition s4_four_frames : s4 := set_geometry 4 1024 512 s4_init.

(** ** [hyperion.parseReadoff] *)

Module hyperion.

(** The camera assembler [ca] is outside these two files; of it, the
    sensor object uses the method [partition], which may raise and may
    change the state of the camera. *)
Record camassem (World Frames Columns Parsed : Type) : Type := CameraAssembler {
  partition : Frames → Columns → World → result Parsed * World
}.
Arguments partition {World Frames Columns Parsed} _ _ _ _.

(** [return self.ca.partition(frames, columns)] *)
Definition parseReadoff {World Frames Columns Parsed}
    (ca : camassem World Frames Columns Parsed)
    (frames : Frames) (columns : Columns) (world : World)
    : result Parsed * World :=
  partition ca frames columns world.

End hyperion.

(** ** Small runs of the numpy model *)

Definition ones_twos : ndarray Z := NDArray [2; 4] [1; 1; 2; 2; 1; 1; 2; 2]%Z.

Example split_small :
  np_split_axis1 ones_twos 2
  = inr [NDArray [2; 2] [1; 1; 1; 1]%Z; NDArray [2; 2] [2; 2; 2; 2]%Z].
Proof. reflexivity. Qed.

Example concatenate_small :
  np_concatenate_axis1 [NDArray [2; 2] [1; 1; 1; 1]%Z; NDArray [2; 2] [2; 2; 2; 2]%Z]
  = inr ones_twos.
Proof. reflexivity. Qed.

Example split_uneven : np_split_axis1 ones_twos 3 = inl ValueError.
Proof. reflexivity. Qed.

(** ** Lists: blocks and joins of equally long lists *)

Section list_blocks.
Context {A : Type}.
Implicit Types l : list A.
Implicit Types ls : list (list A).

Lemma join_lookup_same_length n ls i j :
  Forall (λ l, length l = n) ls → j < n →
  mjoin ls !! (i * n + j) = ls !! i ≫= (.!! j).
Proof.
  intros Hls Hj. revert i.
  induction Hls as [|l ls Hl _ IH]; intros i; [done|].
  destruct i as [|i]; csimpl.
  - rewrite lookup_app_l by lia. done.
  - rewrite lookup_app_r by lia. rewrite <- IH. f_equal. lia.
Qed.

Lemma length_join_same_length n ls :
  Forall (λ l, length l = n) ls → length (mjoin ls) = length ls * n.
Proof.
  intros Hls. rewrite length_join. by apply sum_list_fmap_same.
Qed.

Lemma Forall_fmap_seq (P : list A → Prop) (f : nat → list A) n :
  (∀ i, i < n → P (f i)) → Forall P (f <$> seq 0 n).
Proof.
  intros Hf. apply Forall_fmap, Forall_seq. intros i Hi. apply Hf. lia.
Qed.

Lemma lookup_fmap_seq {B} (f : nat → B) n i :
  i < n → (f <$> seq 0 n) !! i = Some (f i).
Proof.
  intros Hi. by rewrite list_lookup_fmap, lookup_seq_lt.
Qed.

Lemma length_block n i l :
  (i + 1) * n ≤ length l → length (block n i l) = n.
Proof.
  intros Hl. unfold block. rewrite length_take, length_drop. lia.
Qed.

Lemma lookup_block n i j l :
  j < n → block n i l !! j = l !! (i * n + j).
Proof.
  intros Hj. unfold block. by rewrite lookup_take_lt, lookup_drop.
Qed.

Lemma join_blocks n m l :
  length l = m * n → mjoin ((λ i, block n i l) <$> seq 0 m) = l.
Proof.
  intros Hl. apply list_eq. intros p.
  destruct (decide (p < m * n)) as [Hp|Hp].
  - assert (0 < n) by (destruct n; lia).
    replace p with (p / n * n + p mod n) at 1 by lia.
    rewrite join_lookup_same_length;
      [|apply Forall_fmap_seq; intros; apply length_block; nia|lia].
    rewrite lookup_fmap_seq by (apply Nat.Div0.div_lt_upper_bound; lia).
    simpl. rewrite lookup_block by lia. f_equal. lia.
  - rewrite !lookup_ge_None_2; [done|lia|].
    rewrite (length_join_same_length n).
    + rewrite length_fmap, length_seq. lia.
    + apply Forall_fmap_seq. intros. apply length_block. nia.
Qed.
End list_blocks.

(** ** Two-dimensional arrays *)

Section arrays2.
Context {A : Type}.
Implicit Types a b : ndarray A.

Lemma get2_eq a h w r c :
  shape a = [h; w] → r < h → c < w → get2 a r c = data a !! (r * w + c).
Proof.
  intros Hs Hr Hc. unfold get2. rewrite Hs. by rewrite decide_True.
Qed.

Lemma ndarray2_ext a b h w :
  wf a → wf b → shape a = [h; w] → shape b = [h; w] →
  (∀ r c, r < h → c < w → get2 a r c = get2 b r c) → a = b.
Proof.
  unfold wf. intros Ha Hb Hsa Hsb Hget.
  destruct a as [sa da], b as [sb db]; simpl in *; subst sa sb.
  f_equal. simpl in Ha, Hb. apply list_eq. intros p.
  destruct (decide (p < h * w)) as [Hp|Hp].
  - assert (0 < w) by (destruct w; lia).
    specialize (Hget (p / w) (p mod w)).
    rewrite !(get2_eq _ h w) in Hget
      by (done || (apply Nat.Div0.div_lt_upper_bound; lia) || lia).
    simpl in Hget. replace (p / w * w + p mod w) with p in Hget by lia.
    apply Hget; [apply Nat.Div0.div_lt_upper_bound|]; lia.
  - rewrite !lookup_ge_None_2; [done|lia|lia].
Qed.

Lemma shape_columns a h w c0 n : shape a = [h; w] → shape (columns a c0 n) = [h; n].
Proof. intros Hs. unfold columns. by rewrite Hs. Qed.

Lemma wf_columns a h w c0 n :
  wf a → shape a = [h; w] → c0 + n ≤ w → wf (columns a c0 n).
Proof.
  unfold wf. intros Ha Hs Hc. unfold columns. rewrite Hs in *. simpl in *.
  rewrite (length_join_same_length n).
  - rewrite length_fmap, length_seq. lia.
  - apply Forall_fmap_seq. intros i Hi. rewrite length_take, length_drop. nia.
Qed.

Lemma get2_columns a h w c0 n r c :
  wf a → shape a = [h; w] → c0 + n ≤ w → r < h → c < n →
  get2 (columns a c0 n) r c = get2 a r (c0 + c).
Proof.
  unfold wf. intros Ha Hs Hc0 Hr Hc.
  rewrite (get2_eq _ h n), (get2_eq a h w) by (done || lia || by eapply shape_columns).
  unfold columns. rewrite Hs in *. simpl in *.
  rewrite join_lookup_same_length; [|by apply Forall_fmap_seq; intros;
    rewrite length_take, length_drop; nia|done].
  rewrite lookup_fmap_seq by done. simpl.
  rewrite lookup_take_lt, lookup_drop by done. f_equal. lia.
Qed.

(** On a two-dimensional array [np.split] cuts equal groups of columns. *)
Lemma np_split_axis1_2d a h w k :
  shape a = [h; w] → k ≠ 0 → w mod k = 0 →
  np_split_axis1 a k = inr ((λ j, columns a (j * (w / k)) (w / k)) <$> seq 0 k).
Proof.
  intros Hs Hk Hdiv. unfold np_split_axis1, columns. rewrite Hs.
  rewrite decide_False, decide_True by done. unfold ret. f_equal.
  apply list_fmap_ext. intros _ j _. simpl. do 2 f_equal.
  apply list_fmap_ext. intros _ i _.
  by rewrite !Nat.mul_1_r.
Qed.

Lemma np_split_axis1_error a h w k :
  shape a = [h; w] → k ≠ 0 → w mod k ≠ 0 → np_split_axis1 a k = inl ValueError.
Proof.
  intros Hs Hk Hdiv. unfold np_split_axis1. rewrite Hs.
  by rewrite decide_False, decide_False.
Qed.
End arrays2.

Section concatenate.
Context {A : Type}.
Implicit Types a b : ndarray A.
Implicit Types arrs : list (ndarray A).

Lemma np_concatenate_uniform arrs h g :
  arrs ≠ [] → Forall (λ a, shape a = [h; g]) arrs →
  np_concatenate_axis1 arrs = inr (hstack h g arrs).
Proof.
  intros Hne Hsh. unfold np_concatenate_axis1, hstack.
  destruct arrs as [|a0 arrs']; [done|].
  pose proof (Forall_inv Hsh) as Hs0. simpl in Hs0. rewrite Hs0.
  rewrite decide_True.
  2:{ eapply Forall_impl; [exact Hsh|]. intros a Ha.
      unfold same_but_axis1. by rewrite Ha. }
  unfold ret. do 2 f_equal.
  - do 2 f_equal. apply sum_list_fmap_same.
    eapply Forall_impl; [exact Hsh|]. intros a Ha. unfold axis1. by rewrite Ha.
  - f_equal. apply list_fmap_ext. intros _ i _. f_equal.
    apply Forall_fmap_ext_1. eapply Forall_impl; [exact Hsh|].
    intros a Ha. unfold axis1. rewrite Ha. simpl. by rewrite Nat.mul_1_r.
Qed.

Lemma length_hstack_row arrs h g i :
  Forall wf arrs → Forall (λ a, shape a = [h; g]) arrs → i < h →
  length (mjoin ((λ a, block g i (data a)) <$> arrs)) = length arrs * g.
Proof.
  intros Hwf Hsh Hi. rewrite (length_join_same_length g).
  - by rewrite length_fmap.
  - apply Forall_fmap. rewrite Forall_lookup. intros j a Hj. simpl.
    rewrite Forall_lookup in Hwf. rewrite Forall_lookup in Hsh.
    specialize (Hwf _ _ Hj). specialize (Hsh _ _ Hj).
    unfold wf in Hwf. rewrite Hsh in Hwf. simpl in Hwf.
    apply length_block. nia.
Qed.

Lemma wf_hstack arrs h g :
  Forall wf arrs → Forall (λ a, shape a = [h; g]) arrs → wf (hstack h g arrs).
Proof.
  intros Hwf Hsh. unfold wf, hstack. simpl.
  rewrite (length_join_same_length (length arrs * g)).
  - rewrite length_fmap, length_seq. lia.
  - apply Forall_fmap_seq. intros i Hi. by apply (length_hstack_row _ h).
Qed.

Lemma get2_hstack arrs h g r c :
  Forall wf arrs → Forall (λ a, shape a = [h; g]) arrs →
  r < h → c < length arrs * g →
  get2 (hstack h g arrs) r c = arrs !! (c / g) ≫= (λ a, get2 a r (c mod g)).
Proof.
  intros Hwf Hsh Hr Hc.
  assert (0 < g) by (destruct g; lia).
  rewrite (get2_eq _ h (length arrs * g)) by done. simpl.
  rewrite join_lookup_same_length;
    [|by apply Forall_fmap_seq; intros; apply (length_hstack_row _ h)|done].
  rewrite lookup_fmap_seq by done. simpl.
  replace c with (c / g * g + c mod g) at 1 by lia.
  rewrite Forall_lookup in Hwf. rewrite Forall_lookup in Hsh.
  rewrite join_lookup_same_length; [| |lia].
  - rewrite list_lookup_fmap.
    destruct (arrs !! (c / g)) as [a|] eqn:Ha; [|done]. simpl.
    rewrite lookup_block by lia.
    by rewrite (get2_eq a h g) by (eauto || lia).
  - apply Forall_fmap. rewrite Forall_lookup. intros j a Hj. simpl.
    specialize (Hwf _ _ Hj). specialize (Hsh _ _ Hj).
    unfold wf in Hwf. rewrite Hsh in Hwf. simpl in Hwf.
    apply length_block. nia.
Qed.
End concatenate.

(** ** Interlacing two lists of groups *)

Section interlace.
Context {A : Type}.
Implicit Types a b : ndarray A.
Implicit Types gs : list (ndarray A).

Lemma interlace_groups_join gs1 gs2 :
  interlace_groups gs1 gs2 = mjoin ((λ p, [p.1; p.2]) <$> zip gs1 gs2).
Proof.
  unfold interlace_groups.
  enough (∀ ps acc,
    foldl (λ acc' '(g1, g2), (acc' ++ [g1]) ++ [g2]) acc ps
    = acc ++ mjoin ((λ p : ndarray A * ndarray A, [p.1; p.2]) <$> ps)) as H
    by (by rewrite H).
  induction ps as [|[g1 g2] ps IH]; intros acc; csimpl.
  - by rewrite app_nil_r.
  - rewrite IH. by rewrite <- !app_assoc.
Qed.

Lemma length_interlace_groups gs1 gs2 :
  length gs1 = length gs2 → length (interlace_groups gs1 gs2) = 2 * length gs1.
Proof.
  intros Hlen. rewrite interlace_groups_join.
  rewrite (length_join_same_length 2).
  - rewrite length_fmap, length_zip_with. lia.
  - apply Forall_fmap, Forall_true. done.
Qed.

Lemma lookup_interlace_groups gs1 gs2 q :
  length gs1 = length gs2 →
  interlace_groups gs1 gs2 !! q
  = if Nat.even q then gs1 !! (q / 2) else gs2 !! (q / 2).
Proof.
  intros Hlen. rewrite interlace_groups_join.
  replace q with (q / 2 * 2 + q mod 2) at 1 by lia.
  rewrite join_lookup_same_length; [|by apply Forall_fmap, Forall_true|lia].
  rewrite list_lookup_fmap, lookup_zip_with.
  destruct (Nat.even q) eqn:Hq.
  - assert (q mod 2 = 0) as ->.
    { apply Nat.even_spec in Hq. destruct Hq as [m ->]. lia. }
    destruct (gs1 !! (q / 2)) as [x|] eqn:H1; [|done].
    destruct (gs2 !! (q / 2)) as [y|] eqn:H2; [done|].
    apply lookup_lt_Some in H1. apply lookup_ge_None in H2. lia.
  - assert (q mod 2 = 1) as ->.
    { rewrite <- Nat.negb_odd in Hq. apply negb_false_iff in Hq.
      apply Nat.odd_spec in Hq. destruct Hq as [m ->]. lia. }
    destruct (gs2 !! (q / 2)) as [y|] eqn:H2.
    + destruct (gs1 !! (q / 2)) as [x|] eqn:H1; [done|].
      apply lookup_lt_Some in H2. apply lookup_ge_None in H1. lia.
    + by destruct (gs1 !! (q / 2)).
Qed.
End interlace.

(** ** The interlacing step with the number of groups as a parameter *)

Section interlace_by.
Context {A : Type}.
Implicit Types a : ndarray A.

Lemma length_groups_of k g a : length (groups_of k g a) = k.
Proof. unfold groups_of. by rewrite length_fmap, length_seq. Qed.

Lemma lookup_groups_of k g a j :
  j < k → groups_of k g a !! j = Some (columns a (j * g) g).
Proof. intros Hj. unfold groups_of. by rewrite lookup_fmap_seq. Qed.

Lemma Forall_interlace_groups (P : ndarray A → Prop) gs1 gs2 :
  length gs1 = length gs2 → Forall P gs1 → Forall P gs2 →
  Forall P (interlace_groups gs1 gs2).
Proof.
  intros Hlen H1 H2. rewrite Forall_lookup. intros q x.
  rewrite lookup_interlace_groups by done.
  rewrite Forall_lookup in H1. rewrite Forall_lookup in H2.
  destruct (Nat.even q); eauto.
Qed.

Lemma Forall_groups_of (P : ndarray A → Prop) k g a :
  (∀ j, j < k → P (columns a (j * g) g)) → Forall P (groups_of k g a).
Proof.
  intros HP. unfold groups_of. apply Forall_fmap, Forall_seq.
  intros j Hj. apply HP. lia.
Qed.

Section geometry.
Variables (k h w : nat) (a1 a2 : ndarray A).
Hypothesis Hk : k ≠ 0.
Hypothesis Hdiv : w mod k = 0.
Hypothesis Hs1 : shape a1 = [h; w].
Hypothesis Hs2 : shape a2 = [h; w].

Lemma interlace_by_eq : interlace_by k a1 a2 = inr (interlaced k h w a1 a2).
Proof using Hk Hdiv Hs1 Hs2.
  unfold interlace_by.
  rewrite (np_split_axis1_2d a1 h w), (np_split_axis1_2d a2 h w) by done.
  simpl. fold (groups_of k (w / k) a1). fold (groups_of k (w / k) a2).
  apply np_concatenate_uniform.
  - intros Hnil. apply (f_equal length) in Hnil.
    rewrite length_interlace_groups in Hnil by (by rewrite !length_groups_of).
    rewrite length_groups_of in Hnil. simpl in Hnil. lia.
  - apply Forall_interlace_groups; [by rewrite !length_groups_of|..];
      apply Forall_groups_of; intros; by eapply shape_columns.
Qed.

Lemma shape_interlaced : shape (interlaced k h w a1 a2) = [h; 2 * w].
Proof using Hk Hdiv.
  unfold interlaced, hstack. simpl. do 2 f_equal.
  rewrite length_interlace_groups by (by rewrite !length_groups_of).
  rewrite length_groups_of. lia.
Qed.

Hypothesis Hwf1 : wf a1.
Hypothesis Hwf2 : wf a2.

Lemma wf_interlaced : wf (interlaced k h w a1 a2).
Proof using All.
  apply wf_hstack.
  - apply Forall_interlace_groups; [by rewrite !length_groups_of|..];
      apply Forall_groups_of; intros; eapply wf_columns; eauto; nia.
  - apply Forall_interlace_groups; [by rewrite !length_groups_of|..];
      apply Forall_groups_of; intros; by eapply shape_columns.
Qed.

(** Column [c] of the result lies in group [c / g] of the interlaced
    list, which is group [c / g / 2] of the first array when [c / g] is
    even and of the second when it is odd. *)
Lemma get2_interlaced r c :
  r < h → c < 2 * w →
  get2 (interlaced k h w a1 a2) r c
  = get2 (if Nat.even (c / (w / k)) then a1 else a2) r
         (c / (w / k) / 2 * (w / k) + c mod (w / k)).
Proof using All.
  intros Hr Hc. set (g := w / k).
  assert (w = k * g) as Hw by (unfold g; lia).
  assert (0 < g) as Hg by (destruct g; lia).
  assert (c / g < 2 * k) as Hq by (apply Nat.Div0.div_lt_upper_bound; nia).
  assert (c / g / 2 < k) as Hq2 by (apply Nat.Div0.div_lt_upper_bound; lia).
  assert (c mod g < g) as Hm by (apply Nat.mod_upper_bound; lia).
  unfold interlaced. fold g. clearbody g.
  assert (c / g / 2 * g + g ≤ w) as Hle.
  { generalize dependent (c / g / 2). intros q2 Hq2. nia. }
  rewrite (get2_hstack _ h g).
  - rewrite lookup_interlace_groups by (by rewrite !length_groups_of).
    destruct (Nat.even (c / g)).
    + rewrite lookup_groups_of by done. simpl.
      by apply (get2_columns a1 h w).
    + rewrite lookup_groups_of by done. simpl.
      by apply (get2_columns a2 h w).
  - apply Forall_interlace_groups; [by rewrite !length_groups_of|..];
      apply Forall_groups_of; intros; eapply wf_columns; eauto; nia.
  - apply Forall_interlace_groups; [by rewrite !length_groups_of|..];
      apply Forall_groups_of; intros; by eapply shape_columns.
  - done.
  - rewrite length_interlace_groups by (by rewrite !length_groups_of).
    rewrite length_groups_of. lia.
Qed.
End geometry.
End interlace_by.

(** ** Pairs of consecutive items *)

Section pairs.
Context {A : Type}.
Implicit Types l : list A.

(** [zip(l[::2], l[1::2])] pairs the items of [l] two at a time. *)
Lemma zip_every_other l :
  zip (every_other l) (every_other (drop 1 l)) = pairs_of l.
Proof.
  enough (∀ n l, length l ≤ n →
    zip (every_other l) (every_other (drop 1 l)) = pairs_of l) as H
    by (by apply (H (length l))).
  clear l. induction n as [|n IH]; intros l Hl.
  - destruct l; [done|simpl in Hl; lia].
  - destruct l as [|x [|y l']]; [done..|].
    simpl. f_equal. rewrite <- IH by (simpl in Hl; lia).
    by destruct l'.
Qed.

Lemma pairs_of_fmap_seq (f : nat → A) n :
  pairs_of (f <$> seq 0 n) = (λ i, (f (2 * i), f (2 * i + 1))) <$> seq 0 (n / 2).
Proof.
  enough (∀ m n s, n ≤ m →
    pairs_of (f <$> seq s n)
    = (λ i, (f (s + 2 * i), f (s + 2 * i + 1))) <$> seq 0 (n / 2)) as H
    by (by apply (H n)).
  clear n. induction m as [|m IH]; intros n s Hn.
  - by replace n with 0 by lia.
  - destruct n as [|[|n]]; [done..|].
    replace (S (S n) / 2) with (S (n / 2)) by lia.
    cbn [seq fmap list_fmap pairs_of].
    f_equal; [by rewrite Nat.add_0_r, Nat.add_1_r|].
    rewrite IH by lia. rewrite <- fmap_S_seq, <- list_fmap_compose.
    apply list_fmap_ext. intros _ i _. simpl. f_equal; f_equal; lia.
Qed.
End pairs.

(** ** [interlace_arrays] and [parseReadoff], case by case *)

Section interlace_arrays.
Context {A : Type}.
Implicit Types a : ndarray A.

Lemma interlace_arrays_eq a1 a2 :
  shape a1 = [1024; 512] → shape a2 = [1024; 512] →
  interlace_arrays a1 a2 = inr (interlaced 16 1024 512 a1 a2).
Proof.
  intros H1 H2. unfold interlace_arrays. rewrite !decide_True by done.
  by apply (interlace_by_eq 16 1024 512).
Qed.

Lemma interlace_arrays_assert a1 a2 :
  ¬ (shape a1 = [1024; 512] ∧ shape a2 = [1024; 512]) →
  interlace_arrays a1 a2 = inl AssertionError.
Proof.
  intros Hn. unfold interlace_arrays.
  destruct (decide (shape a1 = [1024; 512])); [|done].
  destruct (decide (shape a2 = [1024; 512])); [|done].
  by destruct Hn.
Qed.

Lemma interlace_pairs_ok (ps : list (ndarray A * ndarray A)) acc :
  Forall (λ p, shape p.1 = [1024; 512] ∧ shape p.2 = [1024; 512]) ps →
  interlace_pairs ps acc
  = inr (acc ++ ((λ p, interlaced 16 1024 512 p.1 p.2) <$> ps)).
Proof.
  intros Hps. revert acc.
  induction Hps as [|[a1 a2] ps [H1 H2] _ IH]; intros acc; simpl.
  - by rewrite app_nil_r.
  - simpl in H1, H2. rewrite interlace_arrays_eq by done. simpl.
    rewrite IH. by rewrite <- app_assoc.
Qed.

Lemma interlace_pairs_assert (p : ndarray A * ndarray A) ps acc :
  ¬ (shape p.1 = [1024; 512] ∧ shape p.2 = [1024; 512]) →
  interlace_pairs (p :: ps) acc = inl AssertionError.
Proof.
  intros Hn. destruct p as [a1 a2]. simpl.
  by rewrite interlace_arrays_assert.
Qed.
End interlace_arrays.

Lemma wf_subframe self frames i :
  length (data frames) = nframes self * height self * width self →
  i < nframes self → wf (subframe self frames i).
Proof.
  intros Hlen Hi. unfold wf, subframe. simpl.
  rewrite length_block; [lia|nia].
Qed.

(** After a successful first reshape, [parseReadoff] interlaces subframes
    [2 i] and [2 i + 1] for every [i < nframes / 2]. *)
Lemma parseReadoff_pairs self frames :
  length (data frames) = nframes self * height self * width self →
  parseReadoff self frames
  = do s4_frames <-
      interlace_pairs
        ((λ i, (subframe self frames (2 * i), subframe self frames (2 * i + 1)))
         <$> seq 0 (nframes self / 2)) [];
    do s4_frames_2d <- np_array s4_frames;
    do s4_frames_1d <- np_reshape s4_frames_2d [height self; 2 * width self];
    ret (astype_int32 s4_frames_1d).
Proof.
  intros Hlen. unfold parseReadoff.
  destruct self as [? ? ? ? n ? ? ? ? w h ? ? ?]; simpl in *.
  unfold np_reshape at 1. rewrite decide_True by (simpl; lia).
  cbn [bind ret iter shape data numel foldr].
  rewrite zip_every_other, pairs_of_fmap_seq.
  unfold subframe. cbn [height width].
  by rewrite !Nat.mul_1_r.
Qed.

Lemma parseReadoff_length_error self frames :
  length (data frames) ≠ nframes self * height self * width self →
  parseReadoff self frames = inl ValueError.
Proof.
  intros Hlen. unfold parseReadoff, np_reshape.
  rewrite decide_False; [done|]. simpl. lia.
Qed.

Section np_array.
Context {A : Type}.
Implicit Types arrs : list (ndarray A).

Lemma np_array_uniform arrs shp :
  arrs ≠ [] → Forall (λ a, shape a = shp) arrs →
  np_array arrs = inr (NDArray (length arrs :: shp) (mjoin (data <$> arrs))).
Proof.
  intros Hne Hsh. unfold np_array. destruct arrs as [|a0 arrs']; [done|].
  pose proof (Forall_inv Hsh) as H0. simpl in H0.
  rewrite decide_True; [by rewrite H0|].
  eapply Forall_impl; [exact Hsh|]. intros a Ha. simpl in Ha. congruence.
Qed.

Lemma length_join_data arrs shp :
  Forall wf arrs → Forall (λ a, shape a = shp) arrs →
  length (mjoin (data <$> arrs)) = length arrs * numel shp.
Proof.
  intros Hwf Hsh. rewrite (length_join_same_length (numel shp)).
  - by rewrite length_fmap.
  - apply Forall_fmap. rewrite Forall_lookup. intros i a Hi.
    rewrite Forall_lookup in Hwf. rewrite Forall_lookup in Hsh.
    specialize (Hwf _ _ Hi). specialize (Hsh _ _ Hi).
    unfold wf in Hwf. simpl. congruence.
Qed.
End np_array.

Lemma numel2 h w : numel [h; w] = h * w.
Proof. unfold numel. simpl. lia. Qed.

Section parseReadoff_cases.
Variables (self : s4) (frames : ndarray Z).
Hypothesis Hlen :
  length (data frames) = nframes self * height self * width self.

(** Fewer than two subframes: there is no pair, and the final reshape of
    the empty array succeeds only for an empty geometry. *)
Lemma parseReadoff_no_pair_empty :
  nframes self < 2 → height self * width self = 0 →
  parseReadoff self frames = inr (NDArray [height self; 2 * width self] []).
Proof using Hlen.
  intros Hn Hhw. rewrite parseReadoff_pairs by done.
  replace (nframes self / 2) with 0 by lia.
  cbn [seq fmap list_fmap interlace_pairs bind ret np_array].
  unfold np_reshape. cbn [data]. rewrite decide_True; [done|].
  rewrite numel2. simpl. nia.
Qed.

Lemma parseReadoff_no_pair_error :
  nframes self < 2 → height self * width self ≠ 0 →
  parseReadoff self frames = inl ValueError.
Proof using Hlen.
  intros Hn Hhw. rewrite parseReadoff_pairs by done.
  replace (nframes self / 2) with 0 by lia.
  cbn [seq fmap list_fmap interlace_pairs bind ret np_array].
  unfold np_reshape. cbn [data]. rewrite decide_False; [done|].
  rewrite numel2. simpl. nia.
Qed.

(** At least one pair, and a geometry other than 1024 x 512: the first
    call of [interlace_arrays] fails its assertion. *)
Lemma parseReadoff_assert :
  2 ≤ nframes self → ¬ (height self = 1024 ∧ width self = 512) →
  parseReadoff self frames = inl AssertionError.
Proof using Hlen.
  intros Hn Hgeo. rewrite parseReadoff_pairs by done.
  destruct (nframes self / 2) as [|k] eqn:Hk; [lia|].
  cbn [seq fmap list_fmap].
  rewrite interlace_pairs_assert; [done|].
  unfold subframe. cbn [fst snd shape]. intros [[= Hh Hw] _]. by apply Hgeo.
Qed.
End parseReadoff_cases.

(** The end of [parseReadoff]: the pair results stacked, reshaped to
    [(height, 2 * width)] and cast. *)
Section finish.
Variables (h w : nat).
Implicit Types arrs : list (ndarray Z).

Lemma finish_one (r : ndarray Z) :
  wf r → shape r = [h; 2 * w] →
  (do s4_frames_2d <- np_array [r];
   do s4_frames_1d <- np_reshape s4_frames_2d [h; 2 * w];
   ret (astype_int32 s4_frames_1d))
  = inr (astype_int32 r).
Proof using Type.
  intros Hwf Hs. destruct r as [shp d]. unfold wf in Hwf. simpl in Hs, Hwf. subst shp.
  rewrite (np_array_uniform _ [h; 2 * w]) by (done || by constructor).
  cbn [bind fmap list_fmap data mjoin list_join]. rewrite app_nil_r.
  unfold np_reshape. cbn [data]. by rewrite decide_True.
Qed.

Lemma finish_many arrs :
  Forall wf arrs → Forall (λ a, shape a = [h; 2 * w]) arrs →
  2 ≤ length arrs → h * w ≠ 0 →
  (do s4_frames_2d <- np_array arrs;
   do s4_frames_1d <- np_reshape s4_frames_2d [h; 2 * w];
   ret (astype_int32 s4_frames_1d))
  = inl ValueError.
Proof using Type.
  intros Hwf Hs Hlen Hhw.
  rewrite (np_array_uniform _ [h; 2 * w]); [|intros ->; simpl in Hlen; lia|done].
  cbn [bind]. unfold np_reshape. cbn [data].
  rewrite decide_False; [done|].
  rewrite (length_join_data _ [h; 2 * w]) by done. rewrite numel2. nia.
Qed.
End finish.

Section parseReadoff_s4_geometry.
Variables (self : s4) (frames : ndarray Z).
Hypothesis Hlen :
  length (data frames) = nframes self * height self * width self.
Hypothesis Hh : height self = 1024.
Hypothesis Hw : width self = 512.

Lemma shape_subframe i : shape (subframe self frames i) = [1024; 512].
Proof using Hh Hw. unfold subframe. cbn [shape]. by rewrite Hh, Hw. Qed.

Lemma parseReadoff_interlaced :
  parseReadoff self frames
  = do s4_frames_2d <-
      np_array ((λ i, interlaced 16 1024 512 (subframe self frames (2 * i))
                                            (subframe self frames (2 * i + 1)))
                <$> seq 0 (nframes self / 2));
    do s4_frames_1d <- np_reshape s4_frames_2d [height self; 2 * width self];
    ret (astype_int32 s4_frames_1d).
Proof using All.
  rewrite parseReadoff_pairs by done.
  rewrite interlace_pairs_ok.
  2:{ apply Forall_fmap, Forall_true. intros i. unfold compose. cbn [fst snd].
      split; apply shape_subframe. }
  cbn [bind app]. by rewrite <- list_fmap_compose.
Qed.

Lemma wf_interlaced_subframes i j :
  i < nframes self → j < nframes self →
  wf (interlaced 16 1024 512 (subframe self frames i) (subframe self frames j)).
Proof using All.
  intros Hi Hj.
  apply (wf_interlaced 16 1024 512); try done; try apply shape_subframe;
    by apply wf_subframe.
Qed.

Lemma shape_interlaced_subframes i j :
  shape (interlaced 16 1024 512 (subframe self frames i) (subframe self frames j))
  = [height self; 2 * width self].
Proof using Hh Hw.
  rewrite Hh, Hw. by apply shape_interlaced.
Qed.

(** Two or three subframes: one pair, whose interlacing is the result;
    a third subframe is not looked at. *)
Lemma parseReadoff_one_pair :
  nframes self = 2 ∨ nframes self = 3 →
  parseReadoff self frames
  = inr (astype_int32
           (interlaced 16 1024 512 (subframe self frames 0) (subframe self frames 1))).
Proof using All.
  intros Hn. rewrite parseReadoff_interlaced.
  assert (nframes self / 2 = 1) as -> by lia.
  cbn [seq fmap list_fmap].
  rewrite Nat.mul_0_r, Nat.add_0_l.
  rewrite finish_one.
  - done.
  - apply wf_interlaced_subframes; lia.
  - apply shape_interlaced_subframes.
Qed.

(** Four subframes or more: two pair results or more do not fit the
    final shape [(height, 2 * width)]. *)
Lemma parseReadoff_many_pairs :
  4 ≤ nframes self → parseReadoff self frames = inl ValueError.
Proof using All.
  intros Hn. rewrite parseReadoff_interlaced.
  apply finish_many.
  - apply Forall_fmap, Forall_seq. intros i Hi. unfold compose. cbn beta.
    apply wf_interlaced_subframes; lia.
  - apply Forall_fmap, Forall_true. intros i. unfold compose. cbn beta.
    exact (shape_interlaced_subframes (2 * i) (2 * i + 1)).
  - rewrite length_fmap, length_seq. lia.
  - rewrite Hh, Hw. lia.
Qed.
End parseReadoff_s4_geometry.

(** Every run of [parseReadoff] is one of six cases. *)
Lemma parseReadoff_cases (self : s4) (frames : ndarray Z) :
  let n := nframes self in
  let h := height self in
  let w := width self in
  let len_ok := length (data frames) = n * h * w in
  let geo := h = 1024 ∧ w = 512 in
  (¬ len_ok ∧ parseReadoff self frames = inl ValueError)
  ∨ (len_ok ∧ n < 2 ∧ h * w = 0
     ∧ parseReadoff self frames = inr (NDArray [h; 2 * w] []))
  ∨ (len_ok ∧ n < 2 ∧ h * w ≠ 0 ∧ parseReadoff self frames = inl ValueError)
  ∨ (len_ok ∧ 2 ≤ n ∧ ¬ geo ∧ parseReadoff self frames = inl AssertionError)
  ∨ (len_ok ∧ (n = 2 ∨ n = 3) ∧ geo
     ∧ parseReadoff self frames
       = inr (astype_int32
                (interlaced 16 1024 512 (subframe self frames 0)
                                        (subframe self frames 1))))
  ∨ (len_ok ∧ 4 ≤ n ∧ geo ∧ parseReadoff self frames = inl ValueError).
Proof.
  intros n h w len_ok geo. unfold len_ok, geo, n, h, w.
  destruct (decide (length (data frames)
                    = nframes self * height self * width self)) as [Hlen|Hlen].
  2:{ left. split; [done|]. by apply parseReadoff_length_error. }
  right. destruct (decide (nframes self < 2)) as [Hn|Hn].
  { destruct (decide (height self * width self = 0)) as [Hhw|Hhw].
    - left. repeat split; try done. by apply parseReadoff_no_pair_empty.
    - right. left. repeat split; try done. by apply parseReadoff_no_pair_error. }
  do 2 right.
  destruct (decide (height self = 1024 ∧ width self = 512)) as [[Hh Hw]|Hgeo].
  2:{ left. repeat split; try done; [lia|]. apply parseReadoff_assert; (done || lia). }
  right. destruct (decide (nframes self < 4)) as [Hn4|Hn4].
  - left. repeat split; try done; [lia|]. apply parseReadoff_one_pair; (done || lia).
  - right. repeat split; try done; [lia|]. apply parseReadoff_many_pairs; (done || lia).
Qed.

(** ** The groups of the interlaced array *)

Section interlaced_groups.
Context {A : Type}.
Variables (k h w : nat) (a1 a2 : ndarray A).
Hypothesis Hk : k ≠ 0.
Hypothesis Hdiv : w mod k = 0.
Hypothesis Hs1 : shape a1 = [h; w].
Hypothesis Hs2 : shape a2 = [h; w].
Hypothesis Hwf1 : wf a1.
Hypothesis Hwf2 : wf a2.

(** Group [q] of the result is group [q / 2] of the first array for an
    even [q] and of the second array for an odd [q]. *)
Lemma columns_interlaced q :
  q < 2 * k →
  columns (interlaced k h w a1 a2) (q * (w / k)) (w / k)
  = columns (if Nat.even q then a1 else a2) (q / 2 * (w / k)) (w / k).
Proof using All.
  intros Hq. set (g := w / k).
  assert (w = k * g) as Hw by (unfold g; lia).
  pose proof (shape_interlaced k h w a1 a2 Hk Hdiv) as HsR.
  pose proof (wf_interlaced k h w a1 a2 Hk Hdiv Hs1 Hs2 Hwf1 Hwf2) as HwfR.
  assert (q / 2 < k) as Hq2 by lia.
  assert (q * g + g ≤ 2 * w) as Hle1 by nia.
  assert (q / 2 * g + g ≤ w) as Hle2.
  { generalize dependent (q / 2). intros q2 Hq2. nia. }
  assert (shape (if Nat.even q then a1 else a2) = [h; w]) as Hs
    by (by destruct (Nat.even q)).
  assert (wf (if Nat.even q then a1 else a2)) as Hwf
    by (by destruct (Nat.even q)).
  apply (ndarray2_ext _ _ h g).
  - by apply (wf_columns _ h (2 * w)).
  - by apply (wf_columns _ h w).
  - by apply (shape_columns _ h (2 * w)).
  - by apply (shape_columns _ h w).
  - intros r c Hr Hc.
    rewrite (get2_columns _ h (2 * w)), (get2_columns _ h w) by done.
    rewrite (get2_interlaced k h w) by (done || lia). fold g.
    assert ((q * g + c) / g = q) as Hdivq.
    { rewrite Nat.add_comm, Nat.div_add by lia. rewrite Nat.div_small; lia. }
    assert ((q * g + c) mod g = c) as Hmodq.
    { rewrite Nat.add_comm, Nat.Div0.mod_add. apply Nat.mod_small. lia. }
    by rewrite Hdivq, Hmodq.
Qed.
End interlaced_groups.

(** ** Splitting and concatenating back *)

Section split_concatenate.
Context {A : Type}.
Variables (k h w : nat) (a : ndarray A).
Hypothesis Hk : k ≠ 0.
Hypothesis Hdiv : w mod k = 0.
Hypothesis Hw : 0 < w.
Hypothesis Hs : shape a = [h; w].
Hypothesis Hwf : wf a.

Lemma hstack_groups_of : hstack h (w / k) (groups_of k (w / k) a) = a.
Proof using All.
  set (g := w / k).
  assert (w = k * g) as Hwg by (unfold g; lia).
  assert (0 < g) as Hg by (destruct g; lia).
  assert (Forall wf (groups_of k g a)) as Hwfs.
  { apply Forall_groups_of. intros j Hj. apply (wf_columns _ h w); (done || nia). }
  assert (Forall (λ x, shape x = [h; g]) (groups_of k g a)) as Hshs.
  { apply Forall_groups_of. intros j Hj. by apply (shape_columns _ h w). }
  assert (length (groups_of k g a) * g = w) as Hlen
    by (rewrite length_groups_of; lia).
  apply (ndarray2_ext _ _ h w).
  - by apply (wf_hstack _ h g).
  - done.
  - unfold hstack. cbn [shape]. by rewrite Hlen.
  - done.
  - intros r c Hr Hc.
    rewrite (get2_hstack _ h g) by (done || lia).
    assert (c / g < k) as Hq by (apply Nat.Div0.div_lt_upper_bound; lia).
    assert (c mod g < g) as Hm by (apply Nat.mod_upper_bound; lia).
    rewrite lookup_groups_of by done. cbn [mbind option_bind].
    rewrite (get2_columns _ h w); try done.
    + f_equal. lia.
    + clear Hm. generalize dependent (c / g). intros q Hq. nia.
Qed.

Lemma np_concatenate_split :
  np_split_axis1 a k = inr (groups_of k (w / k) a)
  ∧ np_concatenate_axis1 (groups_of k (w / k) a) = inr a.
Proof using All.
  split; [by apply (np_split_axis1_2d a h w)|].
  rewrite (np_concatenate_uniform _ h (w / k)).
  - by rewrite hstack_groups_of.
  - intros Hnil. apply (f_equal length) in Hnil.
    rewrite length_groups_of in Hnil. by destruct k.
  - apply Forall_groups_of. intros j Hj. by apply (shape_columns _ h w).
Qed.
End split_concatenate.

(** ** Reading the result *)

Lemma get2_astype_int32 (a : ndarray Z) r c :
  get2 (astype_int32 a) r c = wrap32 <$> get2 a r c.
Proof.
  unfold get2, astype_int32. cbn [shape data].
  destruct (shape a) as [|h [|w [|? ?]]]; try done.
  case_decide; [|done]. by rewrite list_lookup_fmap.
Qed.

Lemma get2_subframe self frames i r c :
  r < height self → c < width self →
  get2 (subframe self frames i) r c
  = data frames !! (i * (height self * width self) + (r * width self + c)).
Proof.
  intros Hr Hc. rewrite (get2_eq _ (height self) (width self)) by done.
  unfold subframe. cbn [data]. rewrite lookup_block; [done|nia].
Qed.

Lemma length_raw_frames n sz f : length (data (raw_frames n sz f)) = n * sz.
Proof.
  unfold raw_frames. cbn [data]. rewrite (length_join_same_length sz).
  - by rewrite length_fmap, length_seq.
  - apply Forall_fmap_seq. intros. apply length_replicate.
Qed.

Lemma lookup_raw_frames n sz f i p :
  i < n → p < sz → data (raw_frames n sz f) !! (i * sz + p) = Some (f i).
Proof.
  intros Hi Hp. unfold raw_frames. cbn [data].
  rewrite join_lookup_same_length;
    [|by apply Forall_fmap_seq; intros; apply length_replicate|done].
  rewrite lookup_fmap_seq by done. cbn [mbind option_bind].
  by apply lookup_replicate_2.
Qed.

Lemma wf_raw_frames n sz f : wf (raw_frames n sz f).
Proof.
  unfold wf. rewrite length_raw_frames. unfold raw_frames, numel. simpl. lia.
Qed.

Lemma subframes_eq self frames :
  length (data frames) = nframes self * height self * width self →
  (do frames <- np_reshape frames [nframes self; height self; width self];
   iter frames)
  = inr (subframe self frames <$> seq 0 (nframes self)).
Proof.
  intros Hlen. unfold np_reshape. rewrite decide_True by (simpl; lia).
  cbn [bind ret iter shape data numel foldr]. unfold subframe.
  by rewrite !Nat.mul_1_r.
Qed.

Lemma wf_astype_int32 (a : ndarray Z) : wf a → wf (astype_int32 a).
Proof. unfold wf, astype_int32. cbn [shape data]. by rewrite length_fmap. Qed.

Lemma shape_astype_int32 (a : ndarray Z) : shape (astype_int32 a) = shape a.
Proof. done. Qed.

Lemma even_double j : Nat.even (2 * j) = true.
Proof. apply Nat.even_spec. by exists j. Qed.

Lemma even_double_succ j : Nat.even (2 * j + 1) = false.
Proof.
  rewrite <- Nat.negb_odd. apply negb_false_iff, Nat.odd_spec. by exists j.
Qed.

(** The attributes of the sensor objects used below, without computing
    with them. *)
Ltac s4_fields :=
  cbn [nframes height width set_geometry
       s4_4x4 s4_8x64 s4_one_frame s4_three_frames s4_four_frames].

(** * The claims *)

(** C1.  For two subframes [A] and [B] of the geometry [interlace_arrays]
    accepts (1024 rows, 512 columns, hence 16 groups of 32 columns each),
    the reconstructed frame has the 1024 rows and 2 * 512 columns made of
    the column groups of [A] and [B] in strictly alternating order: its
    group [2 j] is group [j] of [A] and its group [2 j + 1] is group [j] of
    [B], for every [j < 16], each group with its columns in their order. *)
Theorem interlace_arrays_alternates (A B : ndarray Z) :
  wf A → wf B → shape A = [1024; 512] → shape B = [1024; 512] →
  ∃ R, interlace_arrays A B = inr R ∧ wf R ∧ shape R = [1024; 2 * 512] ∧
    ∀ j, j < 16 →
      columns R (2 * j * group_width) group_width
        = columns A (j * group_width) group_width
      ∧ columns R ((2 * j + 1) * group_width) group_width
        = columns B (j * group_width) group_width.
Proof.
  intros HwfA HwfB HsA HsB.
  assert (16 ≠ 0) as Hk by done.
  assert (512 mod 16 = 0) as Hdiv by done.
  exists (interlaced 16 1024 512 A B). split; [by apply interlace_arrays_eq|].
  split; [by apply (wf_interlaced 16 1024 512)|].
  split; [by apply shape_interlaced|].
  intros j Hj. change group_width with (512 / 16). split.
  - pose proof (columns_interlaced 16 1024 512 A B Hk Hdiv HsA HsB HwfA HwfB
                  (2 * j) ltac:(lia)) as H.
    rewrite even_double in H. by replace (2 * j / 2) with j in H by lia.
  - pose proof (columns_interlaced 16 1024 512 A B Hk Hdiv HsA HsB HwfA HwfB
                  (2 * j + 1) ltac:(lia)) as H.
    rewrite even_double_succ in H. by replace ((2 * j + 1) / 2) with j in H by lia.
Qed.

Lemma wf_const_frame v : wf (const_frame v).
Proof.
  unfold wf, const_frame. cbn [shape data]. by rewrite length_replicate, numel2.
Qed.

Lemma interlace_arrays_alternates_witness :
  ∃ R, interlace_arrays (const_frame 1) (const_frame 2) = inr R ∧ wf R
    ∧ shape R = [1024; 2 * 512] ∧
    ∀ j, j < 16 →
      columns R (2 * j * group_width) group_width
        = columns (const_frame 1) (j * group_width) group_width
      ∧ columns R ((2 * j + 1) * group_width) group_width
        = columns (const_frame 2) (j * group_width) group_width.
Proof.
  apply (interlace_arrays_alternates (const_frame 1) (const_frame 2)).
  - apply wf_const_frame.
  - apply wf_const_frame.
  - reflexivity.
  - reflexivity.
Defined.

(** C5.  A raw buffer whose length differs from [nframes * height * width]
    makes the reconstruction fail at its first step, the reshape to
    [(nframes, height, width)]: numpy's [ValueError] is raised (the shape
    mismatch error of the code) and nothing is returned. *)
Theorem parseReadoff_shape_mismatch (self : s4) (frames : ndarray Z) :
  length (data frames) ≠ nframes self * height self * width self →
  parseReadoff self frames = inl ValueError.
Proof. apply parseReadoff_length_error. Qed.

Lemma parseReadoff_shape_mismatch_witness :
  parseReadoff s4_init
    (NDArray [2 * 1024 * 512 - 1] (replicate (2 * 1024 * 512 - 1) 0%Z))
  = inl ValueError.
Proof.
  apply parseReadoff_shape_mismatch.
  cbn [data]. rewrite length_replicate.
  change (nframes s4_init) with 2. change (height s4_init) with 1024.
  change (width s4_init) with 512. lia.
Defined.

(** C6, amended.  On every input: whenever the reconstruction returns an
    image, the image is well formed, its height is the input height and its
    width is twice the subframe width, which is
    [group_width * (width / group_width) * 2] when the width is a multiple of
    the group width; with a pair of subframes it returns only for subframes
    of 1024 x 512 and fewer than four of them.  It does return for two or
    three subframes of 1024 x 512 and a buffer of matching length. *)
Theorem parseReadoff_shape (self : s4) (frames : ndarray Z) :
  (∀ R, parseReadoff self frames = inr R →
     wf R
     ∧ shape R = [height self; 2 * width self]
     ∧ (width self mod group_width = 0 →
        shape R = [height self; group_width * (width self / group_width) * 2])
     ∧ (2 ≤ nframes self →
        height self = 1024 ∧ width self = 512 ∧ nframes self < 4))
  ∧ (length (data frames) = nframes self * height self * width self →
     nframes self = 2 ∨ nframes self = 3 →
     height self = 1024 → width self = 512 →
     ∃ R, parseReadoff self frames = inr R).
Proof.
  split.
  - intros R HR.
    assert (Hdiv : ∀ s : list nat,
              s = [height self; 2 * width self] →
              width self mod group_width = 0 →
              s = [height self; group_width * (width self / group_width) * 2]).
    { intros s -> Hmod. change group_width with 32 in *.
      f_equal. f_equal. lia. }
    pose proof (parseReadoff_cases self frames) as H. cbv zeta in H.
    destruct H as [[H1 H]|[(H1 & H2 & H3 & H)|[(H1 & H2 & H3 & H)
      |[(H1 & H2 & H3 & H)|[(H1 & H2 & H3 & H)|(H1 & H2 & H3 & H)]]]]];
      rewrite H in HR; try discriminate HR.
    + injection HR as <-.
      assert (Hs : shape (NDArray [height self; 2 * width self] (@nil Z))
                   = [height self; 2 * width self]) by reflexivity.
      split; [|split; [exact Hs|split; [by apply Hdiv|lia]]].
      unfold wf. cbn [data shape length]. rewrite numel2. nia.
    + injection HR as <-. destruct H3 as [Hh Hw].
      assert (Hs : shape (astype_int32
                    (interlaced 16 1024 512 (subframe self frames 0)
                                            (subframe self frames 1)))
                   = [height self; 2 * width self]).
      { rewrite shape_astype_int32.
        exact (shape_interlaced_subframes self frames Hh Hw 0 1). }
      split; [|split; [exact Hs|split; [by apply Hdiv|lia]]].
      apply wf_astype_int32.
      apply (wf_interlaced_subframes self frames H1 Hh Hw 0 1); lia.
  - intros Hlen Hn Hh Hw. eexists.
    exact (parseReadoff_one_pair self frames Hlen Hh Hw Hn).
Qed.

Lemma parseReadoff_shape_witness :
  ∃ R, parseReadoff s4_init (raw_frames 2 (1024 * 512) marker) = inr R.
Proof.
  apply (proj2 (parseReadoff_shape s4_init (raw_frames 2 (1024 * 512) marker))).
  - rewrite length_raw_frames.
    change (nframes s4_init) with 2. change (height s4_init) with 1024.
    change (width s4_init) with 512. lia.
  - left. reflexivity.
  - reflexivity.
  - reflexivity.
Defined.

(** C6, as the code has it.  Two subframes of 4 rows and 64 columns in a
    buffer of matching length: the number of subframes is even and the width
    is a multiple of the group width, and the reconstruction raises
    [AssertionError], so there is no output whose shape could be measured. *)
Lemma parseReadoff_4x64_no_output :
  length (data (raw_frames 2 (4 * 64) marker))
  = nframes s4_4x64 * height s4_4x64 * width s4_4x64
  ∧ Nat.even (nframes s4_4x64) = true
  ∧ width s4_4x64 mod group_width = 0
  ∧ parseReadoff s4_4x64 (raw_frames 2 (4 * 64) marker) = inl AssertionError.
Proof. repeat split; vm_compute; reflexivity. Qed.

(** C7.  As soon as there is a pair of subframes and their shape is not
    1024 rows by 512 columns, [parseReadoff] raises [AssertionError], also
    when the buffer length matches the geometry, the frame count is even and
    the width is a multiple of the group width: the shape [(1024, 512)] is
    fixed in [interlace_arrays]. *)
Theorem parseReadoff_hard_coded_geometry (self : s4) (frames : ndarray Z) :
  length (data frames) = nframes self * height self * width self →
  2 ≤ nframes self →
  ¬ (height self = 1024 ∧ width self = 512) →
  parseReadoff self frames = inl AssertionError.
Proof. intros Hlen Hn Hgeo. by apply parseReadoff_assert. Qed.

Lemma parseReadoff_hard_coded_geometry_witness :
  Nat.even (nframes s4_8x64) = true ∧ width s4_8x64 mod group_width = 0
  ∧ parseReadoff s4_8x64 (raw_frames 2 (8 * 64) marker) = inl AssertionError.
Proof.
  split; [reflexivity|]. split; [reflexivity|].
  apply parseReadoff_hard_coded_geometry.
  - rewrite length_raw_frames. reflexivity.
  - cbn. lia.
  - cbn. intros [H _]. discriminate H.
Defined.

(** C9.  A frame of positive width [w], a multiple of the group width
    [g], split into its [w / g] column groups of width [g] and concatenated
    back in the same order along the column axis, is the frame itself. *)
Theorem split_concatenate_roundtrip (a : ndarray Z) (h w g : nat) :
  wf a → shape a = [h; w] → 0 < g → 0 < w → w mod g = 0 →
  ∃ groups, np_split_axis1 a (w / g) = inr groups
    ∧ length groups = w / g
    ∧ Forall (λ x, shape x = [h; g]) groups
    ∧ np_concatenate_axis1 groups = inr a.
Proof.
  intros Hwf Hs Hg Hw Hdiv.
  assert (∃ k, w = k * g ∧ k ≠ 0) as (k & -> & Hk).
  { exists (w / g). split; [lia|]. intros H0.
    assert (w = w / g * g) as Hwg by lia. rewrite H0 in Hwg. lia. }
  rewrite Nat.div_mul by lia.
  assert ((k * g) mod k = 0) as Hdivk by (by rewrite Nat.mul_comm, Nat.Div0.mod_mul).
  assert (k * g / k = g) as Hgk by (by rewrite Nat.mul_comm, Nat.div_mul).
  destruct (np_concatenate_split k h (k * g) a Hk Hdivk Hw Hs Hwf) as [Hsplit Hcat].
  rewrite Hgk in Hsplit, Hcat.
  exists (groups_of k g a). split; [done|].
  split; [by rewrite length_groups_of|]. split; [|done].
  apply Forall_groups_of. intros j Hj. by apply (shape_columns _ h (k * g)).
Qed.

Lemma split_concatenate_roundtrip_witness :
  ∃ groups, np_split_axis1 ones_twos (4 / 2) = inr groups
    ∧ length groups = 4 / 2
    ∧ Forall (λ x, shape x = [2; 2]) groups
    ∧ np_concatenate_axis1 groups = inr ones_twos.
Proof.
  apply (split_concatenate_roundtrip ones_twos 2 4 2).
  - reflexivity.
  - reflexivity.
  - lia.
  - lia.
  - reflexivity.
Defined.

(** C2, as the code has it.  With [height = 4], [width = 4] and two
    subframes (all 1s, all 2s) the first call of [interlace_arrays] fails its
    assertion on the shape: no image is returned. *)
Lemma parseReadoff_4x4_asserts :
  parseReadoff s4_4x4 (raw_frames 2 (4 * 4) marker) = inl AssertionError.
Proof. vm_compute. reflexivity. Qed.

(** The pixels of the reconstructed image when each subframe is filled
    with one value. *)
Section markers.
Variables (self : s4) (frames : ndarray Z) (f : nat → Z).
Hypothesis Hlen :
  length (data frames) = nframes self * height self * width self.
Hypothesis Hh : height self = 1024.
Hypothesis Hw : width self = 512.
Hypothesis Hn : 2 ≤ nframes self.
Hypothesis Hf : ∀ i p, i < nframes self → p < 1024 * 512 →
  data frames !! (i * (1024 * 512) + p) = Some (f i).

Lemma get2_subframe_marker i r c :
  i < nframes self → r < 1024 → c < 512 →
  get2 (subframe self frames i) r c = Some (f i).
Proof using All.
  intros Hi Hr Hc. rewrite get2_subframe by lia. rewrite Hh, Hw.
  apply Hf; [done|lia].
Qed.

Lemma get2_interlaced_marker r c :
  r < 1024 → c < 1024 →
  get2 (astype_int32
          (interlaced 16 1024 512 (subframe self frames 0) (subframe self frames 1)))
       r c
  = Some (wrap32 (f (if Nat.even (c / group_width) then 0 else 1))).
Proof using All.
  intros Hr Hc. rewrite get2_astype_int32.
  assert (16 ≠ 0) as Hk by done.
  assert (512 mod 16 = 0) as Hdiv by done.
  rewrite (get2_interlaced 16 1024 512 _ _ Hk Hdiv
             (shape_subframe self frames Hh Hw 0) (shape_subframe self frames Hh Hw 1)
             (wf_subframe self frames 0 Hlen ltac:(lia))
             (wf_subframe self frames 1 Hlen ltac:(lia)) r c Hr ltac:(lia)).
  change (512 / 16) with 32. change group_width with 32.
  assert (c / 32 / 2 * 32 + c mod 32 < 512) as Hc' by lia.
  destruct (Nat.even (c / 32)); by rewrite get2_subframe_marker by (done || lia).
Qed.
End markers.

(** C2, amended.  At the geometry the code accepts ([height = 1024],
    [width = 512], two subframes, groups of 32 columns), with subframe A all
    1s and subframe B all 2s, the reconstruction returns an image of 1024
    rows of 1024 pixels, and in every row the pixel of column [c] is 1 when
    the group [c / 32] is even and 2 when it is odd: 32 ones, 32 twos, 32
    ones, ... *)
Theorem parseReadoff_ones_twos :
  ∃ R, parseReadoff s4_init (raw_frames 2 (1024 * 512) marker) = inr R
    ∧ shape R = [1024; 1024]
    ∧ ∀ r c, r < 1024 → c < 1024 →
        get2 R r c = Some (if Nat.even (c / group_width) then 1 else 2)%Z.
Proof.
  assert (length (data (raw_frames 2 (1024 * 512) marker))
          = nframes s4_init * height s4_init * width s4_init) as Hlen.
  { rewrite length_raw_frames.
    change (nframes s4_init) with 2. change (height s4_init) with 1024.
    change (width s4_init) with 512. lia. }
  eexists. split.
  { exact (parseReadoff_one_pair s4_init _ Hlen eq_refl eq_refl (or_introl eq_refl)). }
  split.
  { rewrite shape_astype_int32. by rewrite (shape_interlaced 16 1024 512). }
  intros r c Hr Hc.
  rewrite (get2_interlaced_marker s4_init _ marker Hlen eq_refl eq_refl
             (le_n 2) (λ i p Hi Hp, lookup_raw_frames 2 (1024 * 512) marker i p Hi Hp)
             r c Hr Hc).
  by destruct (Nat.even (c / group_width)).
Qed.

(** C3, as the code has it.  With three subframes of the S4 geometry the
    reconstruction returns the interlacing of subframes 0 and 1: no error is
    raised and subframe 2 is dropped. *)
Lemma parseReadoff_three_frames_returns :
  parseReadoff s4_three_frames (raw_frames 3 (1024 * 512) marker)
  = inr (astype_int32
           (interlaced 16 1024 512
              (subframe s4_three_frames (raw_frames 3 (1024 * 512) marker) 0)
              (subframe s4_three_frames (raw_frames 3 (1024 * 512) marker) 1))).
Proof.
  apply parseReadoff_one_pair.
  - rewrite length_raw_frames. s4_fields. lia.
  - reflexivity.
  - reflexivity.
  - right. reflexivity.
Qed.

(** C3, amended.  The code has no check of the frame count.  For an odd
    [nframes], with three subframes of 1024 x 512 and a buffer of matching
    length it returns the interlacing of subframes 0 and 1 (subframe 2 is
    not looked at); in every other case with a non-empty geometry it fails,
    with [ValueError] or [AssertionError]. *)
Theorem parseReadoff_odd_nframes (self : s4) (frames : ndarray Z) :
  Nat.odd (nframes self) = true →
  (nframes self = 3 → height self = 1024 → width self = 512 →
   length (data frames) = nframes self * height self * width self →
   parseReadoff self frames
   = inr (astype_int32
            (interlaced 16 1024 512 (subframe self frames 0) (subframe self frames 1))))
  ∧ (¬ (nframes self = 3 ∧ height self = 1024 ∧ width self = 512
        ∧ length (data frames) = nframes self * height self * width self) →
     height self * width self ≠ 0 →
     ∃ e, parseReadoff self frames = inl e ∧ (e = ValueError ∨ e = AssertionError)).
Proof.
  intros Hodd. split.
  - intros Hn Hh Hw Hlen. apply parseReadoff_one_pair; auto.
  - intros Hnot Hhw.
    destruct (decide (length (data frames)
                      = nframes self * height self * width self)) as [Hlen|Hlen].
    2:{ exists ValueError. split; [by apply parseReadoff_length_error|by left]. }
    destruct (decide (nframes self < 2)) as [Hn|Hn].
    { exists ValueError. split; [by apply parseReadoff_no_pair_error|by left]. }
    destruct (decide (height self = 1024 ∧ width self = 512)) as [[Hh Hw]|Hgeo].
    2:{ exists AssertionError. split; [apply parseReadoff_assert; (done || lia)|by right]. }
    exists ValueError. split; [|by left].
    apply parseReadoff_many_pairs; try done.
    assert (nframes self ≠ 3) by (intros H3; apply Hnot; done).
    assert (nframes self ≠ 2) by (intros H2; rewrite H2 in Hodd; done).
    lia.
Qed.

Lemma parseReadoff_odd_nframes_witness :
  ∃ e, parseReadoff s4_one_frame (raw_frames 1 (1024 * 512) marker) = inl e
       ∧ (e = ValueError ∨ e = AssertionError).
Proof.
  apply (proj2 (parseReadoff_odd_nframes s4_one_frame
                  (raw_frames 1 (1024 * 512) marker) eq_refl)).
  - intros (H3 & _). discriminate H3.
  - change (height s4_one_frame) with 1024. change (width s4_one_frame) with 512.
    lia.
Defined.

(** C4, as the code has it.  With four subframes of the S4 geometry and a
    buffer of matching length the reconstruction raises [ValueError]. *)
Lemma parseReadoff_four_frames_fails :
  parseReadoff s4_four_frames (raw_frames 4 (1024 * 512) marker) = inl ValueError.
Proof.
  apply parseReadoff_many_pairs.
  - rewrite length_raw_frames. s4_fields. lia.
  - reflexivity.
  - reflexivity.
  - s4_fields. lia.
Qed.

(** C4, amended.  For an S4 capture with four subframes (1024 x 512, buffer
    of matching length) the loop of [parseReadoff] interlaces each sequential
    pair, (0, 1) and (2, 3), on its own by the interleave rule; the two
    results are not concatenated: stacked they do not fit the final shape
    [(height, 2 * width)], the reshape raises [ValueError] and no image is
    returned. *)
Theorem parseReadoff_four_frames (self : s4) (frames : ndarray Z) :
  nframes self = 4 → height self = 1024 → width self = 512 →
  length (data frames) = nframes self * height self * width self →
  (∃ subframes,
     (do frames <- np_reshape frames [nframes self; height self; width self];
      iter frames) = inr subframes
     ∧ interlace_pairs
         (zip (every_other subframes) (every_other (drop 1 subframes))) []
       = inr [interlaced 16 1024 512 (subframe self frames 0) (subframe self frames 1);
              interlaced 16 1024 512 (subframe self frames 2) (subframe self frames 3)])
  ∧ parseReadoff self frames = inl ValueError.
Proof.
  intros Hn Hh Hw Hlen. split; [|apply parseReadoff_many_pairs; (done || lia)].
  exists (subframe self frames <$> seq 0 (nframes self)).
  split; [by apply subframes_eq|].
  rewrite zip_every_other, pairs_of_fmap_seq, Hn.
  change (4 / 2) with 2. cbn [seq fmap list_fmap].
  rewrite interlace_pairs_ok.
  - cbn [app fmap list_fmap fst snd].
    by rewrite Nat.mul_0_r, Nat.add_0_l, Nat.mul_1_r.
  - repeat constructor; cbn [fst snd]; by apply shape_subframe.
Qed.

Lemma parseReadoff_four_frames_witness :
  parseReadoff s4_four_frames (raw_frames 4 (1024 * 512) marker) = inl ValueError.
Proof.
  assert (length (data (raw_frames 4 (1024 * 512) marker))
          = nframes s4_four_frames * height s4_four_frames * width s4_four_frames)
    as Hlen by (rewrite length_raw_frames; s4_fields; lia).
  exact (proj2 (parseReadoff_four_frames s4_four_frames
                  (raw_frames 4 (1024 * 512) marker) eq_refl eq_refl eq_refl Hlen)).
Defined.

(** C8.  The Hyperion [parseReadoff] does no reordering of its own: for
    every camera assembler, frames and columns (and state of the camera) its
    outcome is the outcome of [ca.partition(frames, columns)]. *)
Theorem hyperion_parseReadoff_partition {World Frames Columns Parsed}
    (ca : hyperion.camassem World Frames Columns Parsed)
    (frames : Frames) (columns : Columns) (world : World) :
  hyperion.parseReadoff ca frames columns world
  = hyperion.partition ca frames columns world.
Proof. reflexivity. Qed.

(** ** Buffers: the computation over buffers follows the one over arrays *)

Section store.
Implicit Types σ : gmap nat (list Z).
Implicit Types v : Store.varray.
Implicit Types a : ndarray Z.

Lemma denotes_mono σ σ' v a : σ ⊆ σ' → denotes σ v a → denotes σ' v a.
Proof.
  intros Hsub [[d Hd] Hread]. split.
  - exists d. by eapply lookup_weaken.
  - rewrite <- Hread. unfold Store.read, Store.peek.
    by rewrite Hd, (lookup_weaken _ _ _ _ Hd Hsub).
Qed.

Lemma Forall2_denotes_mono σ σ' vs (arrs : list (ndarray Z)) :
  σ ⊆ σ' → Forall2 (denotes σ) vs arrs → Forall2 (denotes σ') vs arrs.
Proof.
  intros Hsub Hvs. eapply Forall2_impl; [exact Hvs|].
  intros v a. by apply denotes_mono.
Qed.

Lemma Forall2_denotes_read σ vs (arrs : list (ndarray Z)) :
  Forall2 (denotes σ) vs arrs → Store.read σ <$> vs = arrs.
Proof.
  induction 1 as [|v a vs arrs [_ Hr] _ IH]; [done|]. csimpl. by rewrite Hr, IH.
Qed.

Lemma sim_bind {X Y X' Y'} (R : gmap nat (list Z) → X → Y → Prop)
    (R' : gmap nat (list Z) → X' → Y' → Prop)
    (m : Store.M X) (r : result Y) (f : X → Store.M X') (g : Y → result Y') σ :
  sim R m r σ →
  (∀ σ' x y, σ ⊆ σ' → R σ' x y → sim R' (f x) (g y) σ') →
  sim R' (Store.sbind m f) (bind r g) σ.
Proof.
  intros (res & σ1 & Hm & Hsub & Hag) Hf.
  destruct res as [e|x], r as [e'|y]; simpl in Hag; try done.
  - subst e'. exists (inl e), σ1. unfold Store.sbind. by rewrite Hm.
  - destruct (Hf σ1 x y Hsub Hag) as (res' & σ2 & Hfx & Hsub' & Hag').
    exists res', σ2. unfold Store.sbind. rewrite Hm.
    split; [done|]. split; [by etrans|done].
Qed.

Lemma sim_lift {X Y} (R : gmap nat (list Z) → X → Y → Prop)
    (rx : result X) (r : result Y) σ :
  agree (R σ) rx r → sim R (Store.lift rx) r σ.
Proof. intros Hag. by exists rx, σ. Qed.

Lemma sim_ret {X Y} (R : gmap nat (list Z) → X → Y → Prop) (x : X) (y : Y) σ :
  R σ x y → sim R (Store.sret x) (ret y) σ.
Proof. intros HR. by exists (inr x), σ. Qed.

Lemma fmap_lookup_seq (d : list Z) :
  (λ o, default 0%Z (d !! o)) <$> seq 0 (length d) = d.
Proof.
  apply list_eq. intros i. rewrite list_lookup_fmap.
  destruct (decide (i < length d)) as [Hi|Hi].
  - rewrite lookup_seq_lt by done. simpl.
    destruct (lookup_lt_is_Some_2 d i Hi) as [x Hx]. by rewrite Hx.
  - rewrite lookup_seq_ge by lia. by rewrite lookup_ge_None_2 by lia.
Qed.

(** A new array has a buffer that did not exist, denotes the array it was
    made from, and leaves the other buffers as they are. *)
Lemma sim_new_array σ0 σ a :
  σ0 ⊆ σ →
  sim (λ σ' v a', denotes σ' v a' ∧ σ0 !! Store.base v = None)
      (Store.new_array a) (ret a) σ.
Proof.
  intros Hsub0.
  assert (σ !! fresh (dom σ) = None) as Hfresh
    by (apply not_elem_of_dom, is_fresh).
  eexists _, _. split; [reflexivity|].
  split; [by apply insert_subseteq|]. simpl. split; [split|].
  - unfold live. simpl. rewrite lookup_insert_eq. by eexists.
  - unfold Store.read, Store.peek. simpl. rewrite lookup_insert_eq. simpl.
    destruct a as [shp d]. simpl. by rewrite fmap_lookup_seq.
  - simpl. destruct (σ0 !! fresh (dom σ)) as [d|] eqn:Hd; [|done].
    by rewrite (lookup_weaken _ _ _ _ Hd Hsub0) in Hfresh.
Qed.
Lemma fmap_join {X Y} (f : X → Y) (ls : list (list X)) :
  f <$> mjoin ls = mjoin (fmap f <$> ls).
Proof. induction ls as [|l ls IH]; [done|]. csimpl. by rewrite fmap_app, IH. Qed.

(** Views denote what the operation gives on the array viewed. *)
Lemma reshape_view_denotes σ v a shp :
  denotes σ v a →
  agree (denotes σ) (Store.reshape_view v shp) (np_reshape a shp).
Proof.
  intros [Hlive <-]. unfold Store.reshape_view, np_reshape, Store.read.
  cbn [data]. rewrite length_fmap. by case_decide.
Qed.

Lemma iter_view_denotes σ v a :
  denotes σ v a →
  agree (Forall2 (denotes σ)) (Store.iter_view v) (iter a).
Proof.
  intros [Hlive <-]. unfold Store.iter_view, iter, Store.read. cbn [shape data].
  destruct (shape (Store.offsets v)) as [|n rest]; [done|]. simpl.
  rewrite <- list_fmap_compose. apply Forall2_fmap, Forall_Forall2_diag, Forall_true.
  intros i. split; [done|]. unfold Store.read, compose, block. simpl.
  by rewrite fmap_take, fmap_drop.
Qed.

Lemma split_view_denotes σ v a k :
  denotes σ v a →
  agree (Forall2 (denotes σ)) (Store.split_view v k) (np_split_axis1 a k).
Proof.
  intros [Hlive <-]. unfold Store.split_view, np_split_axis1, Store.read.
  cbn [shape data].
  destruct (shape (Store.offsets v)) as [|d0 [|d1 rest]]; [done..|].
  case_decide; [done|]. case_decide; [|done]. simpl.
  rewrite <- list_fmap_compose. apply Forall2_fmap, Forall_Forall2_diag, Forall_true.
  intros j. split; [done|]. unfold Store.read, compose. simpl. f_equal.
  rewrite fmap_join, <- list_fmap_compose. f_equal.
  apply list_fmap_ext. intros _ i _. simpl. by rewrite fmap_take, fmap_drop.
Qed.

Lemma Forall2_every_other {X Y} (R : X → Y → Prop) (l : list X) (k : list Y) :
  Forall2 R l k → Forall2 R (every_other l) (every_other k).
Proof.
  enough (∀ n (l : list X) (k : list Y), length l ≤ n → Forall2 R l k →
            Forall2 R (every_other l) (every_other k)) as H
    by (by apply (H (length l))).
  clear l k. induction n as [|n IH]; intros l k Hn Hlk.
  - destruct Hlk; [constructor|simpl in Hn; lia].
  - destruct Hlk as [|x y l k Hxy Hlk]; [constructor|].
    simpl. constructor; [done|].
    destruct Hlk as [|x' y' l k _ Hlk]; [constructor|].
    apply IH; [simpl in Hn; lia|done].
Qed.

Lemma Forall2_zip {X1 X2 Y1 Y2} (R1 : X1 → Y1 → Prop) (R2 : X2 → Y2 → Prop)
    (l1 : list X1) (k1 : list Y1) (l2 : list X2) (k2 : list Y2) :
  Forall2 R1 l1 k1 → Forall2 R2 l2 k2 →
  Forall2 (λ p q, R1 p.1 q.1 ∧ R2 p.2 q.2) (zip l1 l2) (zip k1 k2).
Proof.
  intros H1. revert l2 k2.
  induction H1 as [|x y l1 k1 Hxy _ IH]; intros l2 k2 H2; [constructor|].
  destruct H2 as [|x' y' l2 k2 Hxy' H2]; [constructor|].
  simpl. constructor; [done|]. by apply IH.
Qed.

Lemma Forall2_interlace_groups {X Y} (R : X → Y → Prop)
    (l1 l2 : list X) (k1 k2 : list Y) :
  Forall2 R l1 k1 → Forall2 R l2 k2 →
  Forall2 R (interlace_groups l1 l2) (interlace_groups k1 k2).
Proof.
  intros H1 H2. unfold interlace_groups.
  pose proof (Forall2_zip R R _ _ _ _ H1 H2) as Hz.
  enough (∀ acc acc', Forall2 R acc acc' →
    Forall2 R
      (foldl (λ (ig : list X) '(g1, g2), (ig ++ [g1]) ++ [g2]) acc (zip l1 l2))
      (foldl (λ (ig : list Y) '(g1, g2), (ig ++ [g1]) ++ [g2]) acc' (zip k1 k2)))
    as H by (apply H; constructor).
  induction Hz as [|[x1 x2] [y1 y2] ps qs [Hx Hy] _ IH]; intros acc acc' Hacc;
    [done|].
  simpl. apply IH. simpl in Hx, Hy.
  repeat apply Forall2_app; (done || by constructor).
Qed.

(** The operations that copy. *)
Lemma sim_concatenate_new σ0 σ vs (arrs : list (ndarray Z)) :
  σ0 ⊆ σ → Forall2 (denotes σ) vs arrs →
  sim (λ σ' v a, denotes σ' v a ∧ σ0 !! Store.base v = None)
      (Store.concatenate_new vs) (np_concatenate_axis1 arrs) σ.
Proof.
  intros Hsub0 Hvs.
  assert (Store.concatenate_new vs σ
          = Store.sbind (Store.lift (np_concatenate_axis1 arrs)) Store.new_array σ)
    as Heq.
  { unfold Store.concatenate_new, Store.sbind, Store.get_heap, Store.lift.
    by rewrite (Forall2_denotes_read _ _ _ Hvs). }
  unfold sim. rewrite Heq. unfold Store.sbind, Store.lift.
  destruct (np_concatenate_axis1 arrs) as [e|r]; [by exists (inl e), σ|].
  by apply sim_new_array.
Qed.

Lemma sim_array_new σ0 σ vs (arrs : list (ndarray Z)) :
  σ0 ⊆ σ → Forall2 (denotes σ) vs arrs →
  sim (λ σ' v a, denotes σ' v a ∧ σ0 !! Store.base v = None)
      (Store.array_new vs) (np_array arrs) σ.
Proof.
  intros Hsub0 Hvs.
  assert (Store.array_new vs σ
          = Store.sbind (Store.lift (np_array arrs)) Store.new_array σ) as Heq.
  { unfold Store.array_new, Store.sbind, Store.get_heap, Store.lift.
    by rewrite (Forall2_denotes_read _ _ _ Hvs). }
  unfold sim. rewrite Heq. unfold Store.sbind, Store.lift.
  destruct (np_array arrs) as [e|r]; [by exists (inl e), σ|].
  by apply sim_new_array.
Qed.

Lemma sim_astype_new σ0 σ v a :
  σ0 ⊆ σ → denotes σ v a →
  sim (λ σ' v' a', denotes σ' v' a' ∧ σ0 !! Store.base v' = None)
      (Store.astype_new v) (ret (astype_int32 a)) σ.
Proof.
  intros Hsub0 [Hlive <-].
  change (Store.astype_new v) with
    (λ σ1, Store.new_array (astype_int32 (Store.read σ1 v)) σ1).
  by apply (sim_new_array σ0 σ).
Qed.

Lemma sim_impl {X Y} (R R' : gmap nat (list Z) → X → Y → Prop)
    (m : Store.M X) (r : result Y) σ :
  (∀ σ' x y, R σ' x y → R' σ' x y) → sim R m r σ → sim R' m r σ.
Proof.
  intros HR (res & σ' & Hm & Hsub & Hag). exists res, σ'.
  split; [done|]. split; [done|].
  destruct res, r; simpl in *; auto.
Qed.

Lemma shape_denotes σ v a : denotes σ v a → shape (Store.offsets v) = shape a.
Proof. by intros [_ <-]. Qed.

Lemma sim_interlace_arrays σ0 σ v1 v2 a1 a2 :
  σ0 ⊆ σ → denotes σ v1 a1 → denotes σ v2 a2 →
  sim (λ σ' v a, denotes σ' v a ∧ σ0 !! Store.base v = None)
      (Store.interlace_arrays v1 v2) (interlace_arrays a1 a2) σ.
Proof.
  intros Hsub0 H1 H2. unfold Store.interlace_arrays, interlace_arrays.
  rewrite (shape_denotes _ _ _ H1), (shape_denotes _ _ _ H2).
  case_decide; [|by apply sim_lift]. case_decide; [|by apply sim_lift].
  apply (sim_bind (λ σ', Forall2 (denotes σ'))).
  { apply sim_lift. by apply split_view_denotes. }
  intros σ1 gs1 ga1 Hsub1 Hg1.
  apply (sim_bind (λ σ', Forall2 (denotes σ'))).
  { apply sim_lift. apply split_view_denotes. by eapply denotes_mono. }
  intros σ2 gs2 ga2 Hsub2 Hg2.
  apply sim_concatenate_new.
  { etrans; [exact Hsub0|]. by etrans. }
  apply Forall2_interlace_groups; [|done]. by eapply Forall2_denotes_mono.
Qed.

Lemma sim_interlace_pairs ps (qs : list (ndarray Z * ndarray Z)) :
  ∀ σ acc (acc' : list (ndarray Z)),
  Forall2 (λ p q, denotes σ p.1 q.1 ∧ denotes σ p.2 q.2) ps qs →
  Forall2 (denotes σ) acc acc' →
  sim (λ σ', Forall2 (denotes σ'))
      (Store.interlace_pairs ps acc) (interlace_pairs qs acc') σ.
Proof.
  revert qs. induction ps as [|[v1 v2] ps IH]; intros qs σ acc acc' Hps Hacc.
  - apply Forall2_nil_inv_l in Hps as ->. by apply sim_ret.
  - apply Forall2_cons_inv_l in Hps as ([a1 a2] & qs' & [H1 H2] & Hps & ->).
    simpl in H1, H2. cbn [Store.interlace_pairs interlace_pairs].
    apply (sim_bind (λ σ' v a, denotes σ' v a ∧ σ !! Store.base v = None)).
    { by apply sim_interlace_arrays. }
    intros σ1 v a Hsub1 [Hva _]. apply IH.
    + eapply Forall2_impl; [exact Hps|]. intros p q [Hp Hq].
      split; by eapply denotes_mono.
    + apply Forall2_app; [by eapply Forall2_denotes_mono|by constructor].
Qed.

(** The method over buffers ends as the method over arrays does, on the
    array the raw buffer denotes; its result has a buffer that did not
    exist before the call. *)
Lemma sim_parseReadoff self σ frames a :
  denotes σ frames a →
  sim (λ σ' v a', denotes σ' v a' ∧ σ !! Store.base v = None)
      (Store.parseReadoff self frames) (parseReadoff self a) σ.
Proof.
  intros Hfr. unfold Store.parseReadoff, parseReadoff.
  apply (sim_bind (λ σ', denotes σ')).
  { apply sim_lift. by apply reshape_view_denotes. }
  intros σ1 v1 a1 Hsub1 H1.
  apply (sim_bind (λ σ', Forall2 (denotes σ'))).
  { apply sim_lift. by apply iter_view_denotes. }
  intros σ2 subs subs' Hsub2 Hsubs.
  apply (sim_bind (λ σ', Forall2 (denotes σ'))).
  { apply sim_interlace_pairs; [|constructor].
    apply Forall2_zip; apply Forall2_every_other; [done|].
    by apply Forall2_drop. }
  intros σ3 fs fs' Hsub3 Hfs.
  apply (sim_bind (λ σ', denotes σ')).
  { eapply sim_impl; [|by apply (sim_array_new σ3)]. by intros ? ? ? [? _]. }
  intros σ4 v4 a4 Hsub4 H4.
  apply (sim_bind (λ σ', denotes σ')).
  { apply sim_lift. by apply reshape_view_denotes. }
  intros σ5 v5 a5 Hsub5 H5.
  apply sim_astype_new; [|done].
  etrans; [exact Hsub1|]. etrans; [exact Hsub2|]. etrans; [exact Hsub3|].
  by etrans.
Qed.
End store.

(** C10.  [parseReadoff] run on a raw buffer that exists: every buffer that
    existed before the call, the raw buffer among them, has the contents it
    had; the call ends as the reconstruction over arrays does on the array
    the raw buffer held, with the same exception or with a result that
    holds the reconstructed image; and the buffer of the result is newly
    allocated: it did not exist before the call and is not the raw buffer. *)
Theorem parseReadoff_pure (self : s4) (frames : Store.varray)
    (σ : gmap nat (list Z)) :
  live σ frames →
  ∃ res σ', Store.parseReadoff self frames σ = (res, σ')
    ∧ σ ⊆ σ'
    ∧ Store.read σ' frames = Store.read σ frames
    ∧ agree (λ out image,
               Store.read σ' out = image
               ∧ σ !! Store.base out = None
               ∧ is_Some (σ' !! Store.base out)
               ∧ Store.base out ≠ Store.base frames)
            res (parseReadoff self (Store.read σ frames)).
Proof.
  intros Hlive.
  destruct (sim_parseReadoff self σ frames (Store.read σ frames))
    as (res & σ' & Hrun & Hsub & Hag); [done|].
  exists res, σ'. split; [done|]. split; [done|]. split.
  { assert (denotes σ' frames (Store.read σ frames)) as [_ Hr]; [|done].
    by apply (denotes_mono σ). }
  destruct res as [e|out], (parseReadoff self (Store.read σ frames)) as [e'|image];
    simpl in *; try done.
  destruct Hag as [[Hl Hr] Hnew]. repeat split; try done.
  intros Heq. destruct Hlive as [d Hd]. rewrite Heq in Hnew. congruence.
Qed.

Lemma parseReadoff_pure_witness :
  ∃ res σ',
    Store.parseReadoff s4_init (raw_view (raw_frames 2 (1024 * 512) marker))
      (raw_heap (raw_frames 2 (1024 * 512) marker)) = (res, σ')
    ∧ raw_heap (raw_frames 2 (1024 * 512) marker) ⊆ σ'
    ∧ Store.read σ' (raw_view (raw_frames 2 (1024 * 512) marker))
      = Store.read (raw_heap (raw_frames 2 (1024 * 512) marker))
          (raw_view (raw_frames 2 (1024 * 512) marker))
    ∧ agree (λ out image,
               Store.read σ' out = image
               ∧ raw_heap (raw_frames 2 (1024 * 512) marker) !! Store.base out = None
               ∧ is_Some (σ' !! Store.base out)
               ∧ Store.base out
                 ≠ Store.base (raw_view (raw_frames 2 (1024 * 512) marker)))
            res
            (parseReadoff s4_init
               (Store.read (raw_heap (raw_frames 2 (1024 * 512) marker))
                  (raw_view (raw_frames 2 (1024 * 512) marker)))).
Proof.
  apply (parseReadoff_pure s4_init
           (raw_view (raw_frames 2 (1024 * 512) marker))
           (raw_heap (raw_frames 2 (1024 * 512) marker))).
  exists (data (raw_frames 2 (1024 * 512) marker)).
  apply lookup_singleton_eq.
Defined.

Example parseReadoff_store_small :
  (Store.parseReadoff s4_4x4 (raw_view (raw_frames 2 (4 * 4) marker))
     (raw_heap (raw_frames 2 (4 * 4) marker))).1
  = inl AssertionError.
Proof. vm_compute. reflexivity. Qed.

(** * More of [s4.parseReadoff] *)

Lemma parseReadoff_returns_exactly (self : s4) (frames : ndarray Z) :
  (∃ R, parseReadoff self frames = inr R)
  ↔ length (data frames) = nframes self * height self * width self
    ∧ ((nframes self < 2 ∧ height self * width self = 0)
       ∨ ((nframes self = 2 ∨ nframes self = 3)
          ∧ height self = 1024 ∧ width self = 512)).
Proof.
  pose proof (parseReadoff_cases self frames) as H. cbv zeta in H.
  destruct H as [[H1 H]|[(H1 & H2 & H3 & H)|[(H1 & H2 & H3 & H)|[(H1 & H2 & H3 & H)
    |[(H1 & H2 & H3 & H)|(H1 & H2 & H3 & H)]]]]]; rewrite H; split.
  - by intros [R HR].
  - by intros [Hlen _].
  - intros _. split; [done|]. by left.
  - intros _. by eexists.
  - by intros [R HR].
  - intros [_ [[_ Hhw]|[Hn [Hh Hw]]]]; [done|]. rewrite Hh, Hw in H3. lia.
  - by intros [R HR].
  - intros [_ [[Hn _]|[_ Hgeo]]]; [lia|done].
  - intros _. split; [done|]. by right.
  - intros _. by eexists.
  - by intros [R HR].
  - intros [_ [[Hn _]|[Hn _]]]; lia.
Qed.

(** X1.  [parseReadoff] returns an image exactly when the buffer has
    [nframes * height * width] elements and either there is one pair of
    subframes of 1024 x 512 (two or three subframes), or there is no pair
    and the geometry is empty. *)
Theorem parseReadoff_returns_iff (self : s4) (frames : ndarray Z) :
  (∃ R, parseReadoff self frames = inr R)
  ↔ length (data frames) = nframes self * height self * width self
    ∧ ((nframes self < 2 ∧ height self * width self = 0)
       ∨ ((nframes self = 2 ∨ nframes self = 3)
          ∧ height self = 1024 ∧ width self = 512)).
Proof. apply parseReadoff_returns_exactly. Qed.

(** X2.  [parseReadoff] raises [AssertionError] exactly when the buffer
    length matches the geometry, there is a pair of subframes, and the
    geometry is not 1024 x 512; every other failure is a [ValueError] of a
    reshape. *)
Theorem parseReadoff_failures (self : s4) (frames : ndarray Z) :
  (parseReadoff self frames = inl AssertionError
   ↔ length (data frames) = nframes self * height self * width self
     ∧ 2 ≤ nframes self
     ∧ ¬ (height self = 1024 ∧ width self = 512))
  ∧ (∀ e, parseReadoff self frames = inl e → e = AssertionError ∨ e = ValueError).
Proof.
  pose proof (parseReadoff_cases self frames) as H. cbv zeta in H.
  destruct H as [[H1 H]|[(H1 & H2 & H3 & H)|[(H1 & H2 & H3 & H)|[(H1 & H2 & H3 & H)
    |[(H1 & H2 & H3 & H)|(H1 & H2 & H3 & H)]]]]]; rewrite H;
    (split; [split|]); try done; try (by intros (? & ? & ?); (done || lia));
    try (intros e [= <-]; ((by left) || (by right))).
Qed.

(** X3.  Where each pixel of the image comes from.  With one pair of
    subframes of 1024 x 512 and a buffer of matching length, the pixel of
    row [r] and column [c] of the returned image is the raw sample, cast to
    [int32], of subframe [(c / 32) mod 2], row [r], column
    [c / 64 * 32 + c mod 32]. *)
Theorem parseReadoff_pixel_map (self : s4) (frames : ndarray Z) (r c : nat) :
  length (data frames) = nframes self * height self * width self →
  nframes self = 2 ∨ nframes self = 3 →
  height self = 1024 → width self = 512 →
  r < 1024 → c < 1024 →
  ∃ R, parseReadoff self frames = inr R
    ∧ get2 R r c
      = wrap32 <$> data frames !! ((c / 32) mod 2 * (1024 * 512)
                                   + (r * 512 + (c / 64 * 32 + c mod 32))).
Proof.
  intros Hlen Hn Hh Hw Hr Hc.
  eexists. split; [by apply parseReadoff_one_pair|].
  rewrite get2_astype_int32. f_equal.
  assert (16 ≠ 0) as Hk by done.
  assert (512 mod 16 = 0) as Hdiv by done.
  rewrite (get2_interlaced 16 1024 512 _ _ Hk Hdiv
             (shape_subframe self frames Hh Hw 0) (shape_subframe self frames Hh Hw 1)
             (wf_subframe self frames 0 Hlen ltac:(lia))
             (wf_subframe self frames 1 Hlen ltac:(lia)) r c Hr ltac:(lia)).
  change (512 / 16) with 32.
  assert (c / 32 / 2 * 32 + c mod 32 < 512) as Hc' by lia.
  assert (c / 32 / 2 = c / 64) as -> by lia.
  destruct (Nat.even (c / 32)) eqn:Heven.
  - assert ((c / 32) mod 2 = 0) as ->.
    { apply Nat.even_spec in Heven as [m Hm]. lia. }
    rewrite get2_subframe by lia. rewrite Hh, Hw. f_equal.
  - assert ((c / 32) mod 2 = 1) as ->.
    { rewrite <- Nat.negb_odd in Heven. apply negb_false_iff in Heven.
      apply Nat.odd_spec in Heven as [m Hm]. lia. }
    rewrite get2_subframe by lia. rewrite Hh, Hw. f_equal.
Qed.

Lemma parseReadoff_pixel_map_witness :
  ∃ R, parseReadoff s4_init (raw_frames 2 (1024 * 512) marker) = inr R
    ∧ get2 R 5 40
      = wrap32 <$> data (raw_frames 2 (1024 * 512) marker)
                     !! ((40 / 32) mod 2 * (1024 * 512)
                         + (5 * 512 + (40 / 64 * 32 + 40 mod 32))).
Proof.
  apply (parseReadoff_pixel_map s4_init (raw_frames 2 (1024 * 512) marker) 5 40).
  - rewrite length_raw_frames. s4_fields.
    change (nframes s4_init) with 2. change (height s4_init) with 1024.
    change (width s4_init) with 512. lia.
  - left. reflexivity.
  - reflexivity.
  - reflexivity.
  - lia.
  - lia.
Defined.

(** ** [interlace_arrays] loses nothing *)

Lemma interlace_arrays_inr {A} (a1 a2 R : ndarray A) :
  interlace_arrays a1 a2 = inr R →
  shape a1 = [1024; 512] ∧ shape a2 = [1024; 512]
  ∧ R = interlaced 16 1024 512 a1 a2.
Proof.
  intros HR.
  destruct (decide (shape a1 = [1024; 512] ∧ shape a2 = [1024; 512]))
    as [[H1 H2]|Hn].
  - rewrite interlace_arrays_eq in HR by done. by injection HR as <-.
  - rewrite interlace_arrays_assert in HR by done. discriminate HR.
Qed.

(** A pixel of the first array is found in the interlaced one at the same
    row, in group [2 * (c / g)]; one of the second array in group
    [2 * (c / g) + 1]. *)
Section recover.
Context {A : Type}.
Variables (k h w : nat) (a1 a2 : ndarray A).
Hypothesis Hk : k ≠ 0.
Hypothesis Hdiv : w mod k = 0.
Hypothesis Hs1 : shape a1 = [h; w].
Hypothesis Hs2 : shape a2 = [h; w].
Hypothesis Hwf1 : wf a1.
Hypothesis Hwf2 : wf a2.

Lemma get2_interlaced_inv (second : bool) r c :
  r < h → c < w →
  get2 (interlaced k h w a1 a2) r
       ((2 * (c / (w / k)) + (if second then 1 else 0)) * (w / k) + c mod (w / k))
  = get2 (if second then a2 else a1) r c.
Proof using All.
  intros Hr Hc. set (g := w / k).
  assert (w = k * g) as Hw by (unfold g; lia).
  assert (0 < g) as Hg by (destruct g; lia).
  assert (c mod g < g) as Hm by (apply Nat.mod_upper_bound; lia).
  assert (c / g < k) as Hq by (apply Nat.Div0.div_lt_upper_bound; lia).
  assert (c = c / g * g + c mod g) as Hcg by (rewrite Nat.mul_comm; apply Nat.div_mod_eq).
  set (b := if second then 1 else 0).
  assert (b < 2) as Hb by (unfold b; destruct second; lia).
  set (q := 2 * (c / g) + b).
  assert ((q * g + c mod g) / g = q) as Hdq.
  { rewrite Nat.add_comm, Nat.div_add by lia. rewrite Nat.div_small; lia. }
  assert ((q * g + c mod g) mod g = c mod g) as Hmq.
  { rewrite Nat.add_comm, Nat.Div0.mod_add. by apply Nat.mod_small. }
  assert (q / 2 = c / g) as Hq2 by (unfold q; lia).
  assert (Nat.even q = negb second) as Heven.
  { unfold q, b. destruct second.
    - apply even_double_succ.
    - rewrite Nat.add_0_r. apply even_double. }
  rewrite (get2_interlaced k h w a1 a2 Hk Hdiv Hs1 Hs2 Hwf1 Hwf2).
  - fold g. rewrite Hdq, Hmq, Hq2, Heven, <- Hcg. by destruct second.
  - done.
  - fold g. unfold q. clearbody g b. generalize dependent (c / g). intros d ? ? ?.
    generalize dependent (c mod g). intros. nia.
Qed.
End recover.

(** X4.  [interlace_arrays] is injective: two pairs of (well-formed)
    subframes with the same interlaced frame are the same pair.  No pixel is
    lost in the interlacing. *)
Theorem interlace_arrays_injective (A B A' B' R : ndarray Z) :
  wf A → wf B → wf A' → wf B' →
  interlace_arrays A B = inr R → interlace_arrays A' B' = inr R →
  A = A' ∧ B = B'.
Proof.
  intros HwA HwB HwA' HwB' HR HR'.
  apply interlace_arrays_inr in HR as (HsA & HsB & ->).
  apply interlace_arrays_inr in HR' as (HsA' & HsB' & HR').
  assert (16 ≠ 0) as Hk by done.
  assert (512 mod 16 = 0) as Hdiv by done.
  split.
  - apply (ndarray2_ext _ _ 1024 512); try done. intros r c Hr Hc.
    rewrite <- (get2_interlaced_inv 16 1024 512 A B Hk Hdiv HsA HsB HwA HwB
                  false r c Hr Hc).
    rewrite <- (get2_interlaced_inv 16 1024 512 A' B' Hk Hdiv HsA' HsB' HwA' HwB'
                  false r c Hr Hc).
    by rewrite HR'.
  - apply (ndarray2_ext _ _ 1024 512); try done. intros r c Hr Hc.
    rewrite <- (get2_interlaced_inv 16 1024 512 A B Hk Hdiv HsA HsB HwA HwB
                  true r c Hr Hc).
    rewrite <- (get2_interlaced_inv 16 1024 512 A' B' Hk Hdiv HsA' HsB' HwA' HwB'
                  true r c Hr Hc).
    by rewrite HR'.
Qed.

Lemma interlace_arrays_injective_witness :
  const_frame 1 = const_frame 1 ∧ const_frame 2 = const_frame 2.
Proof.
  apply (interlace_arrays_injective (const_frame 1) (const_frame 2)
           (const_frame 1) (const_frame 2)
           (interlaced 16 1024 512 (const_frame 1) (const_frame 2)));
    try apply wf_const_frame; by apply interlace_arrays_eq.
Defined.

(** ** The pixel values *)

Lemma wrap32_int32 z : int32 (wrap32 z).
Proof.
  unfold int32, wrap32.
  pose proof (Z.mod_pos_bound (z + 2 ^ 31) (2 ^ 32) ltac:(done)). lia.
Qed.

Lemma wrap32_id z : int32 z → wrap32 z = z.
Proof.
  unfold int32, wrap32. intros Hz. rewrite Z.mod_small; lia.
Qed.

Lemma astype_int32_id (a : ndarray Z) : Forall int32 (data a) → astype_int32 a = a.
Proof.
  destruct a as [shp d]. unfold astype_int32. cbn [shape data]. intros Hd.
  f_equal. induction Hd as [|z d Hz _ IH]; [done|]. csimpl.
  by rewrite wrap32_id, IH.
Qed.

Section Forall_data.
Context {A : Type} (P : A → Prop).

Lemma Forall_data_columns (a : ndarray A) c0 n :
  Forall P (data a) → Forall P (data (columns a c0 n)).
Proof using Type.
  intros Ha. unfold columns.
  destruct (shape a) as [|h [|w [|? ?]]]; try done. cbn [data].
  apply Forall_join, Forall_fmap, Forall_true. intros i.
  by apply Forall_take, Forall_drop.
Qed.

Lemma Forall_data_hstack h g (arrs : list (ndarray A)) :
  Forall (λ a, Forall P (data a)) arrs → Forall P (data (hstack h g arrs)).
Proof using Type.
  intros Harrs. unfold hstack. cbn [data].
  apply Forall_join, Forall_fmap, Forall_true. intros i.
  apply Forall_join, Forall_fmap. eapply Forall_impl; [exact Harrs|].
  intros a Ha. by apply Forall_take, Forall_drop.
Qed.

Lemma Forall_data_interlaced k h w (a1 a2 : ndarray A) :
  Forall P (data a1) → Forall P (data a2) →
  Forall P (data (interlaced k h w a1 a2)).
Proof using Type.
  intros H1 H2. unfold interlaced. apply Forall_data_hstack.
  apply Forall_interlace_groups; [by rewrite !length_groups_of|..];
    apply Forall_groups_of; intros j _; by apply Forall_data_columns.
Qed.
End Forall_data.

Lemma Forall_data_subframe (P : Z → Prop) self frames i :
  Forall P (data frames) → Forall P (data (subframe self frames i)).
Proof.
  intros Hf. unfold subframe, block. cbn [data]. by apply Forall_take, Forall_drop.
Qed.

(** X5.  The pixels of a returned image are [int32] values; and when the
    raw samples are [int32] values already (16-bit samples are), the cast
    changes nothing: with a pair of subframes the image is the interlaced
    frame itself, pixel values untouched. *)
Theorem parseReadoff_int32 (self : s4) (frames R : ndarray Z) :
  parseReadoff self frames = inr R →
  Forall int32 (data R)
  ∧ (Forall int32 (data frames) → 2 ≤ nframes self →
     R = interlaced 16 1024 512 (subframe self frames 0) (subframe self frames 1)).
Proof.
  intros HR.
  pose proof (parseReadoff_cases self frames) as H. cbv zeta in H.
  destruct H as [[H1 H]|[(H1 & H2 & H3 & H)|[(H1 & H2 & H3 & H)|[(H1 & H2 & H3 & H)
    |[(H1 & H2 & H3 & H)|(H1 & H2 & H3 & H)]]]]]; rewrite H in HR; try done.
  - injection HR as <-. split; [constructor|lia].
  - injection HR as <-. split.
    + unfold astype_int32. cbn [data]. apply Forall_fmap, Forall_true.
      intros z. apply wrap32_int32.
    + intros Hf _. apply astype_int32_id.
      apply Forall_data_interlaced; by apply Forall_data_subframe.
Qed.

Lemma parseReadoff_int32_witness :
  Forall int32
    (data (astype_int32
             (interlaced 16 1024 512
                (subframe s4_init (raw_frames 2 (1024 * 512) marker) 0)
                (subframe s4_init (raw_frames 2 (1024 * 512) marker) 1))))
  ∧ (Forall int32 (data (raw_frames 2 (1024 * 512) marker)) →
     2 ≤ nframes s4_init →
     astype_int32
       (interlaced 16 1024 512
          (subframe s4_init (raw_frames 2 (1024 * 512) marker) 0)
          (subframe s4_init (raw_frames 2 (1024 * 512) marker) 1))
     = interlaced 16 1024 512
         (subframe s4_init (raw_frames 2 (1024 * 512) marker) 0)
         (subframe s4_init (raw_frames 2 (1024 * 512) marker) 1)).
Proof.
  apply (parseReadoff_int32 s4_init (raw_frames 2 (1024 * 512) marker)).
  apply parseReadoff_one_pair.
  - rewrite length_raw_frames.
    change (nframes s4_init) with 2. change (height s4_init) with 1024.
    change (width s4_init) with 512. lia.
  - reflexivity.
  - reflexivity.
  - left. reflexivity.
Defined.

(** ** The interlaced frame holds the pixels of both subframes, each once *)

Section permutation.
Context {A : Type}.
Implicit Types l : list A.

Lemma block_join_fmap_seq (f : nat → list A) n m i :
  (∀ j, j < m → length (f j) = n) → i < m →
  block n i (mjoin (f <$> seq 0 m)) = f i.
Proof using Type.
  intros Hf Hi.
  assert (Forall (λ l, length l = n) (f <$> seq 0 m)) as Hall
    by (by apply Forall_fmap_seq).
  apply list_eq. intros p. destruct (decide (p < n)) as [Hp|Hp].
  - rewrite lookup_block by done.
    rewrite join_lookup_same_length by done.
    by rewrite lookup_fmap_seq.
  - rewrite !lookup_ge_None_2; [done|rewrite Hf; lia|].
    rewrite length_block; [lia|].
    rewrite (length_join_same_length n) by done.
    rewrite length_fmap, length_seq. nia.
Qed.

Lemma join_segments l base g k :
  base + k * g ≤ length l →
  mjoin ((λ j, take g (drop (base + j * g) l)) <$> seq 0 k)
  = take (k * g) (drop base l).
Proof using Type.
  intros Hlen.
  rewrite <- (join_blocks g k (take (k * g) (drop base l)))
    by (rewrite length_take, length_drop; lia).
  f_equal. apply Forall_fmap_ext_1, Forall_seq. intros j Hj.
  apply list_eq. intros p. unfold block. destruct (decide (p < g)) as [Hp|Hp].
  - rewrite !lookup_take_lt, !lookup_drop by done.
    rewrite lookup_take_lt by nia. rewrite lookup_drop. f_equal. lia.
  - by rewrite !lookup_take_ge by lia.
Qed.

Lemma join_app_Permutation {X} (f1 f2 : X → list A) (xs : list X) :
  mjoin ((λ x, f1 x ++ f2 x) <$> xs) ≡ₚ mjoin (f1 <$> xs) ++ mjoin (f2 <$> xs).
Proof using Type.
  induction xs as [|x xs IH]; [done|]. csimpl. rewrite IH.
  rewrite <- !(assoc_L (++)). f_equiv.
  rewrite !(assoc_L (++)). f_equiv. apply Permutation_app_comm.
Qed.

Lemma join_join (lls : list (list (list A))) :
  mjoin (mjoin lls) = mjoin (mjoin <$> lls).
Proof using Type.
  induction lls as [|ls lls IH]; [done|]. csimpl. by rewrite join_app, IH.
Qed.

Lemma join_Permutation_ext {X} (f1 f2 : X → list A) (xs : list X) :
  Forall (λ x, f1 x ≡ₚ f2 x) xs → mjoin (f1 <$> xs) ≡ₚ mjoin (f2 <$> xs).
Proof using Type.
  induction 1 as [|x xs Hx _ IH]; [done|]. csimpl. by rewrite Hx, IH.
Qed.

Variables (k h w : nat) (a1 a2 : ndarray A).
Hypothesis Hk : k ≠ 0.
Hypothesis Hdiv : w mod k = 0.
Hypothesis Hs1 : shape a1 = [h; w].
Hypothesis Hs2 : shape a2 = [h; w].
Hypothesis Hwf1 : wf a1.
Hypothesis Hwf2 : wf a2.

Lemma block_data_columns (a : ndarray A) i j :
  shape a = [h; w] → wf a → i < h → j < k →
  block (w / k) i (data (columns a (j * (w / k)) (w / k)))
  = take (w / k) (drop (i * w + j * (w / k)) (data a)).
Proof using Hk Hdiv.
  intros Hs Hwf Hi Hj. unfold columns. rewrite Hs. cbn [data].
  rewrite block_join_fmap_seq; [done| |done].
  intros i' Hi'. rewrite length_take, length_drop.
  unfold wf in Hwf. rewrite Hs, numel2 in Hwf.
  assert (w = k * (w / k)) as Hw by lia.
  generalize dependent (w / k). intros. nia.
Qed.

Lemma interlaced_row_Permutation i :
  i < h →
  mjoin ((λ a, block (w / k) i (data a))
         <$> interlace_groups (groups_of k (w / k) a1) (groups_of k (w / k) a2))
  ≡ₚ block w i (data a1) ++ block w i (data a2).
Proof using All.
  intros Hi. rewrite interlace_groups_join, fmap_join, <- list_fmap_compose.
  unfold groups_of. rewrite zip_with_fmap_l, zip_with_fmap_r, zip_with_diag.
  rewrite <- list_fmap_compose.
  assert (w = k * (w / k)) as Hw by lia.
  pose proof Hwf1 as Hl1. pose proof Hwf2 as Hl2. unfold wf in Hl1, Hl2.
  rewrite Hs1, numel2 in Hl1. rewrite Hs2, numel2 in Hl2.
  rewrite join_join, <- list_fmap_compose.
  rewrite (Forall_fmap_ext_1 _
             (λ j, take (w / k) (drop (i * w + j * (w / k)) (data a1))
                   ++ take (w / k) (drop (i * w + j * (w / k)) (data a2)))
             (seq 0 k)).
  2:{ apply Forall_seq. intros j Hj. unfold compose. csimpl.
      rewrite !block_data_columns by (done || lia). by rewrite app_nil_r. }
  rewrite join_app_Permutation.
  rewrite !join_segments; [by rewrite <- Hw| |].
  - rewrite <- Hw. nia.
  - rewrite <- Hw. nia.
Qed.

Lemma interlaced_Permutation :
  data (interlaced k h w a1 a2) ≡ₚ data a1 ++ data a2.
Proof using All.
  unfold interlaced, hstack. cbn [data].
  rewrite (join_Permutation_ext _
             (λ i, block w i (data a1) ++ block w i (data a2))).
  - rewrite join_app_Permutation.
    pose proof Hwf1 as Hl1. pose proof Hwf2 as Hl2. unfold wf in Hl1, Hl2.
    rewrite Hs1, numel2 in Hl1. rewrite Hs2, numel2 in Hl2.
    by rewrite !join_blocks.
  - apply Forall_seq. intros i Hi. apply interlaced_row_Permutation. lia.
Qed.
End permutation.

(** X6.  The interlaced frame holds exactly the pixels of the two
    subframes, each as many times as the subframes hold it: nothing is
    dropped, nothing is duplicated. *)
Theorem interlace_arrays_Permutation (A B R : ndarray Z) :
  wf A → wf B → interlace_arrays A B = inr R →
  data R ≡ₚ data A ++ data B.
Proof.
  intros HwA HwB HR.
  apply interlace_arrays_inr in HR as (HsA & HsB & ->).
  by apply (interlaced_Permutation 16 1024 512).
Qed.

Lemma interlace_arrays_Permutation_witness :
  data (interlaced 16 1024 512 (const_frame 1) (const_frame 2))
  ≡ₚ data (const_frame 1) ++ data (const_frame 2).
Proof.
  apply (interlace_arrays_Permutation (const_frame 1) (const_frame 2)).
  - apply wf_const_frame.
  - apply wf_const_frame.
  - by apply interlace_arrays_eq.
Defined.

(** ** Failures before the first allocation *)

(** X7.  When the buffer length does not match the geometry, or there is a
    pair of subframes of a geometry other than 1024 x 512, [parseReadoff]
    raises before it has allocated anything: the buffers after the call are
    the buffers before it. *)
Theorem parseReadoff_early_failure (self : s4) (frames : Store.varray)
    (σ : gmap nat (list Z)) :
  length (data (Store.offsets frames)) ≠ nframes self * height self * width self
  ∨ (2 ≤ nframes self ∧ ¬ (height self = 1024 ∧ width self = 512)) →
  ∃ e, Store.parseReadoff self frames σ = (inl e, σ).
Proof.
  intros Hcase.
  destruct (decide (length (data (Store.offsets frames))
                    = nframes self * height self * width self)) as [Hlen|Hlen].
  2:{ exists ValueError.
      unfold Store.parseReadoff, Store.sbind, Store.lift, Store.reshape_view,
        np_reshape.
      rewrite decide_False; [done|]. simpl. lia. }
  destruct Hcase as [Hne|[Hn Hgeo]]; [done|].
  exists AssertionError.
  unfold Store.parseReadoff, Store.sbind, Store.lift, Store.reshape_view,
    Store.iter_view, np_reshape.
  rewrite decide_True by (simpl; lia).
  cbn [bind ret iter shape data Store.offsets Store.base].
  rewrite <- list_fmap_compose, zip_every_other, pairs_of_fmap_seq.
  destruct (nframes self / 2) as [|m] eqn:Hm; [lia|].
  cbn [seq fmap list_fmap Store.interlace_pairs].
  unfold Store.interlace_arrays at 1. unfold compose. cbn [Store.offsets shape].
  rewrite decide_False; [done|].
  intros [= Hh Hw]. by apply Hgeo.
Qed.

Lemma parseReadoff_early_failure_witness :
  ∃ e, Store.parseReadoff s4_8x64 (raw_view (raw_frames 2 (8 * 64) marker))
         (raw_heap (raw_frames 2 (8 * 64) marker))
       = (inl e, raw_heap (raw_frames 2 (8 * 64) marker)).
Proof.
  apply parseReadoff_early_failure. right. split.
  - s4_fields. lia.
  - s4_fields. intros [H _]. discriminate H.
Defined.

(** ** What the reconstruction does not read *)

Lemma block_take {A} (l : list A) n m i :
  i < m → block n i (take (m * n) l) = block n i l.
Proof.
  intros Hi. unfold block. apply list_eq. intros p.
  destruct (decide (p < n)) as [Hp|Hp].
  - rewrite !lookup_take_lt, !lookup_drop by done. rewrite lookup_take_lt; [done|nia].
  - by rewrite !lookup_take_ge by lia.
Qed.

Lemma take_raw_frames n m sz f :
  m ≤ n → take (m * sz) (data (raw_frames n sz f)) = data (raw_frames m sz f).
Proof.
  intros Hm. apply list_eq. intros p.
  destruct (decide (p < m * sz)) as [Hp|Hp].
  - rewrite lookup_take_lt by done.
    assert (0 < sz) by (destruct sz; lia).
    assert (p / sz < m) by (apply Nat.Div0.div_lt_upper_bound; lia).
    replace p with (p / sz * sz + p mod sz) by lia.
    rewrite !lookup_raw_frames by lia. done.
  - rewrite lookup_take_ge by lia.
    rewrite lookup_ge_None_2; [done|]. rewrite length_raw_frames. lia.
Qed.

Lemma raw_frames_ext n sz (f g : nat → Z) :
  (∀ i, i < n → f i = g i) → raw_frames n sz f = raw_frames n sz g.
Proof.
  intros Hfg. unfold raw_frames. do 2 f_equal.
  apply Forall_fmap_ext_1, Forall_seq. intros i Hi. rewrite Hfg; [done|lia].
Qed.

(** X8.  With three subframes of 1024 x 512 the third one is never read:
    two buffers that agree on their first two subframes give the same
    image, whatever their third subframes hold. *)
Theorem parseReadoff_third_subframe_unread (self : s4) (frames frames' : ndarray Z) :
  nframes self = 3 → height self = 1024 → width self = 512 →
  length (data frames) = nframes self * height self * width self →
  length (data frames') = nframes self * height self * width self →
  take (2 * (1024 * 512)) (data frames) = take (2 * (1024 * 512)) (data frames') →
  (∃ R, parseReadoff self frames = inr R)
  ∧ parseReadoff self frames = parseReadoff self frames'.
Proof.
  intros Hn Hh Hw Hlen Hlen' Htake.
  rewrite (parseReadoff_one_pair self frames) by auto.
  rewrite (parseReadoff_one_pair self frames') by auto.
  split; [by eexists|].
  assert (∀ i, i < 2 → subframe self frames i = subframe self frames' i) as Hsub.
  { intros i Hi. unfold subframe. f_equal. rewrite Hh, Hw.
    rewrite <- (block_take (data frames) _ 2 i Hi).
    rewrite <- (block_take (data frames') _ 2 i Hi). by rewrite Htake. }
  by rewrite (Hsub 0), (Hsub 1) by lia.
Qed.

Lemma parseReadoff_third_subframe_unread_witness :
  (∃ R, parseReadoff s4_three_frames
          (raw_frames 3 (1024 * 512) (marker_third 3)) = inr R)
  ∧ parseReadoff s4_three_frames (raw_frames 3 (1024 * 512) (marker_third 3))
    = parseReadoff s4_three_frames (raw_frames 3 (1024 * 512) (marker_third 77)).
Proof.
  apply parseReadoff_third_subframe_unread.
  - reflexivity.
  - reflexivity.
  - reflexivity.
  - rewrite length_raw_frames. s4_fields. lia.
  - rewrite length_raw_frames. s4_fields. lia.
  - rewrite !(take_raw_frames 3 2) by lia.
    rewrite (raw_frames_ext 2 (1024 * 512) (marker_third 3) (marker_third 77));
      [reflexivity|].
    intros i Hi. unfold marker_third. by rewrite !decide_True.
Defined.

(** X9.  The sensor object [s4.__init__] builds has the geometry
    [interlace_arrays] accepts: for it, [parseReadoff] returns an image
    exactly when the buffer holds [2 * 1024 * 512] samples, and the image
    then has 1024 rows and 1024 columns. *)
Theorem parseReadoff_s4_init (frames : ndarray Z) :
  ((∃ R, parseReadoff s4_init frames = inr R)
   ↔ length (data frames) = 2 * 1024 * 512)
  ∧ (∀ R, parseReadoff s4_init frames = inr R → shape R = [1024; 2 * 512] ∧ wf R).
Proof.
  assert (nframes s4_init = 2) as Hn by reflexivity.
  assert (height s4_init = 1024) as Hh by reflexivity.
  assert (width s4_init = 512) as Hw by reflexivity.
  split.
  - rewrite parseReadoff_returns_exactly. rewrite Hn, Hh, Hw. split.
    + by intros [Hlen _].
    + intros Hlen. split; [done|]. right. auto.
  - intros R HR.
    assert (length (data frames)
            = nframes s4_init * height s4_init * width s4_init) as Hlen.
    { destruct (decide (length (data frames)
                        = nframes s4_init * height s4_init * width s4_init));
        [done|]. rewrite parseReadoff_length_error in HR by done. discriminate HR. }
    rewrite (parseReadoff_one_pair s4_init frames Hlen Hh Hw (or_introl Hn)) in HR.
    injection HR as <-. split.
    + rewrite shape_astype_int32. by apply shape_interlaced.
    + apply wf_astype_int32.
      apply (wf_interlaced_subframes s4_init frames Hlen Hh Hw); rewrite Hn; lia.
Qed.

(** * [s4.reportStatusSensor] *)

Lemma detnames_first : ∃ names, status.detnames = "W0_TOP_L_EDGE1" :: names.
Proof. eexists. vm_compute. reflexivity. Qed.

Lemma length_detnames : length status.detnames = 32.
Proof. reflexivity. Qed.

(** The first loop raises at its first pass: [bitidx] is read before any
    statement has assigned it. *)
Lemma first_loop_raises {E} (bitsrev : string) :
  status.for_each (E := E) (status.record_edge bitsrev)
    (status.Locals ∅ None) status.detnames
  = inl (status.UnboundLocalError, status.Locals ∅ None).
Proof. destruct detnames_first as [names ->]. reflexivity. Qed.

(** X10.  [reportStatusSensor] never returns the dictionary of detected
    edges: whatever the camera and the register hold, it raises.  When
    [getRegister] and [int(rval, 16)] raise nothing, the exception is the
    [UnboundLocalError] of the first pass of the first loop, which reads
    [bitidx] before anything has assigned it; the camera is then as
    [getRegister] left it and nothing has been logged. *)
Theorem reportStatusSensor_never_returns {World E StatusBits}
    (ca : status.camassem World E) (int16 : string → E + Z)
    (statusbits : StatusBits) (world : World) (log : list string) :
  status.reportStatusSensor ca int16 statusbits world log
  = (inl (match (status.getRegister ca "STAT_EDGE_DETECTS" world).1 with
          | inl e => status.Raised e
          | inr (_, rval) =>
              match int16 rval with
              | inl e => status.Raised e
              | inr _ => status.UnboundLocalError
              end
          end),
     (status.getRegister ca "STAT_EDGE_DETECTS" world).2,
     log).
Proof.
  unfold status.reportStatusSensor.
  destruct (status.getRegister ca "STAT_EDGE_DETECTS" world)
    as [[e|[err rval]] world']; [done|]. cbn [fst snd].
  destruct (int16 rval) as [e|n]; [done|].
  by rewrite first_loop_raises.
Qed.

(** Python's string operations, as the model has them. *)
Example bin_examples :
  status.bin 10 = "0b1010" ∧ status.bin 0 = "0b0" ∧ status.bin (-6) = "-0b110".
Proof. by repeat split. Qed.

Example zfill_examples :
  status.zfill 5 "42" = "00042" ∧ status.zfill 5 "-42" = "-0042"
  ∧ status.zfill 2 "1234" = "1234".
Proof. by repeat split. Qed.

Example edgebits_example :
  status.zfill 32 (status.drop_chars 2 (status.bin (Z.shiftl 5 1)))
  = "00000000000000000000000000001010".
Proof. reflexivity. Qed.

Example getitem_examples :
  status.getitem (E := Empty_set) "abc" 0 = inr "a"
  ∧ status.getitem (E := Empty_set) "abc" (-1) = inr "c"
  ∧ status.getitem (E := Empty_set) "abc" 3 = inl status.IndexError.
Proof. by repeat split. Qed.

(** * [interlace_arrays]: the assertions are its only failure *)

(** X11.  [interlace_arrays] returns a frame exactly when both arrays have
    the shape (1024, 512), and the frame then has the shape (1024, 2 * 512);
    otherwise it raises [AssertionError].  Behind the two assertions neither
    [np.split] (512 columns in 16 sections) nor [np.concatenate] can
    fail. *)
Theorem interlace_arrays_outcome (a1 a2 : ndarray Z) :
  ((∃ R, interlace_arrays a1 a2 = inr R ∧ shape R = [1024; 2 * 512])
   ↔ shape a1 = [1024; 512] ∧ shape a2 = [1024; 512])
  ∧ (interlace_arrays a1 a2 = inl AssertionError
     ↔ ¬ (shape a1 = [1024; 512] ∧ shape a2 = [1024; 512]))
  ∧ (interlace_arrays a1 a2 = inl AssertionError
     ∨ ∃ R, interlace_arrays a1 a2 = inr R).
Proof.
  destruct (decide (shape a1 = [1024; 512] ∧ shape a2 = [1024; 512]))
    as [[H1 H2]|Hn].
  - rewrite interlace_arrays_eq by done. split; [|split].
    + split; [done|]. intros _. eexists. split; [done|].
      by apply shape_interlaced.
    + split; [done|]. intros Hn. by destruct Hn.
    + right. by eexists.
  - rewrite interlace_arrays_assert by done. split; [|split].
    + split; [by intros (R & HR & _)|done].
    + done.
    + by left.
Qed.
